(** * flo: task registry, status machine and quota failover

    A shallow embedding of the Go packages [pkg/task] (the registry of
    [registry.go]) and [cmd/flo/cmd] (the [work] command of [work.go]),
    of the task handlers of [pkg/tools] that drive the registry and of the
    default authorizer of [pkg/auth], followed by the properties the
    specification states about them and by further properties read off
    the code.

    Conventions of the embedding:
    - a Go [string] is a Rocq [string] (a sequence of bytes);
    - [map[string]*Task] is a [gmap string Task]; ranging over the map is
      ranging over [map_to_list], one of the orders Go may pick, and every
      statement below is about membership, never about order;
    - a Go slice is a [slice]: either the nil slice or a backing list;
    - a method that mutates the receiver and returns [error] becomes a
      function returning the receiver after the call paired with
      [option Error] ([None] is Go's [nil] error);
    - a [*Task] handed to the registry is read as the task it points to
      when the call is made; where the program writes through a pointer
      the registry holds (the [work] command does), the write is a write to
      the registry ([cmd.store]). *)

From Stdlib Require Import String Ascii ZArith List Bool Lia.
From stdpp Require Import base option list gmap strings relations.

Local Open Scope Z_scope.
Local Set Warnings "-clear-no-such-hyp".

(** ** Go slices: nil is distinct from empty *)

Inductive slice (A : Type) : Type :=
  | nil_slice
  | mk_slice (backing : list A).
Arguments nil_slice {A}.
Arguments mk_slice {A} backing.

(** [len(s)] and [range s] see only the elements. *)
Definition elems {A} (s : slice A) : list A :=
  match s with
  | nil_slice => []
  | mk_slice l => l
  end.

(** [s == nil] *)
Definition is_nil {A} (s : slice A) : bool :=
  match s with
  | nil_slice => true
  | mk_slice _ => false
  end.

(** [make([]T, 0, n)]: empty and not nil, whatever the capacity. *)
Definition make_empty {A} (capacity : nat) : slice A := mk_slice [].

(** [append(s, x)]: appending to the nil slice allocates. *)
Definition append {A} (s : slice A) (x : A) : slice A :=
  match s with
  | nil_slice => mk_slice [x]
  | mk_slice l => mk_slice (l ++ [x])
  end.

Module task.

(** ** Tasks *)

(** [type Status string] *)
Definition Status : Type := string.

Definition StatusPending : Status := "pending".
Definition StatusInProgress : Status := "in_progress".
Definition StatusComplete : Status := "complete".
Definition StatusFailed : Status := "failed".

(** The fields of [Task] that the registry, the tests and the [work]
    command read or write. Timestamps are instants on an integer clock. *)
Record Task : Type := mkTask {
  ID : string;
  Title : string;
  Description : string;
  TaskStatus : Status;   (* the field [Status] *)
  Deps : list string;
  Repo : string;
  Priority : Z;
  Model : string;
  Fallback : string;
  CreatedAt : Z;
  UpdatedAt : Z
}.

#[global] Instance Task_eq_dec : EqDecision Task.
Proof. solve_decision. Defined.

(** Modelled from the spec: [Status.IsValid] lives in task.go, which is not
    among the sources; "[status] is always one of the four valid values". *)
Definition IsValid (s : Status) : bool :=
  bool_decide (s = StatusPending) || bool_decide (s = StatusInProgress)
  || bool_decide (s = StatusComplete) || bool_decide (s = StatusFailed).

(** Modelled from the spec: [Task.Validate] lives in task.go, which is not
    among the sources; "[id] and [title] are non-empty; [status] is always
    one of the four valid values". The messages are the ones task_test.go
    expects, in the order it expects them. [None] is the nil error. *)
Definition Validate (t : Task) : option string :=
  if bool_decide (ID t = "") then Some "task ID cannot be empty"
  else if bool_decide (Title t = "") then Some "task title cannot be empty"
  else if negb (IsValid (TaskStatus t)) then Some "invalid status"
  else None.

(** Modelled from the spec: the constructor [New] lives in task.go; it
    "sets [status = pending] and stamps both timestamps". *)
Definition New (now : Z) (id title : string) : Task :=
  {| ID := id; Title := title; Description := ""; TaskStatus := StatusPending;
     Deps := []; Repo := ""; Priority := 0; Model := ""; Fallback := "";
     CreatedAt := now; UpdatedAt := now |}.

Definition with_status (t : Task) (s : Status) (now : Z) : Task :=
  {| ID := ID t; Title := Title t; Description := Description t;
     TaskStatus := s; Deps := Deps t; Repo := Repo t; Priority := Priority t;
     Model := Model t; Fallback := Fallback t;
     CreatedAt := CreatedAt t; UpdatedAt := now |}.

Definition with_deps (t : Task) (deps : list string) : Task :=
  {| ID := ID t; Title := Title t; Description := Description t;
     TaskStatus := TaskStatus t; Deps := deps; Repo := Repo t;
     Priority := Priority t; Model := Model t; Fallback := Fallback t;
     CreatedAt := CreatedAt t; UpdatedAt := UpdatedAt t |}.

Definition with_routing (t : Task) (model fallback : string) : Task :=
  {| ID := ID t; Title := Title t; Description := Description t;
     TaskStatus := TaskStatus t; Deps := Deps t; Repo := Repo t;
     Priority := Priority t; Model := model; Fallback := fallback;
     CreatedAt := CreatedAt t; UpdatedAt := UpdatedAt t |}.

(** ** Errors

    The code builds every error with [fmt.Errorf]; the constructors keep the
    arguments of the format string, and the names are the specification's. *)
Inductive Error : Type :=
  | ValidationError (cause : string)            (* "invalid task: %w" *)
  | DuplicateID (id : string)                   (* "task with ID '%s' already exists" *)
  | NotFound (id : string)                      (* "task '%s' not found" *)
  | UnknownDependency (depID : string)          (* "dependency '%s' not found" *)
  | CircularDependency (startID : string)       (* "circular dependency detected: %s" *)
  | HasDependents (id dependent : string)       (* "cannot delete task '%s': task '%s' depends on it" *)
  | InvalidTransition (from to : Status)
  | LoadReadError (cause : string)              (* "failed to read: %w" *)
  | LoadUnmarshalError (cause : string)         (* "failed to unmarshal: %w" *)
  | LoadInvalidTask (id cause : string)         (* "invalid task '%s': %w" *)
  | LoadTaskError (id : string) (cause : Error) (* "task '%s': %w" *)
  | WalkOutOfFuel.                              (* artefact of the model, never returned: see [Update_walk_total] *)

(** Modelled from the spec: [Task.SetStatus] lives in task.go, which is not
    among the sources. "State machine per task: pending -> in_progress ->
    {complete | failed}; failed -> pending is the only exit from a terminal
    state. All other transitions fail with InvalidTransition"; "[updated_at]
    is refreshed on every mutation, including status transitions". *)
Definition canTransition (from to : Status) : bool :=
  (bool_decide (from = StatusPending) && bool_decide (to = StatusInProgress))
  || (bool_decide (from = StatusInProgress) && bool_decide (to = StatusComplete))
  || (bool_decide (from = StatusInProgress) && bool_decide (to = StatusFailed))
  || (bool_decide (from = StatusFailed) && bool_decide (to = StatusPending)).

Definition SetStatus (now : Z) (t : Task) (to : Status) : Task * option Error :=
  if canTransition (TaskStatus t) to
  then (with_status t to now, None)
  else (t, Some (InvalidTransition (TaskStatus t) to)).

(** ** The registry *)

(** [tasks map[string]*Task]; the mutex has no counterpart in a sequential
    model. *)
Abbreviation Registry := (gmap string Task).

Definition NewRegistry : Registry := ∅.

(** [validateDepsLocked]: the first dependency that is not a key fails. *)
Fixpoint validateDeps_loop (r : Registry) (deps : list string) : option Error :=
  match deps with
  | [] => None
  | depID :: rest =>
      match r !! depID with
      | None => Some (UnknownDependency depID)
      | Some _ => validateDeps_loop r rest
      end
  end.

Definition validateDepsLocked (r : Registry) (t : Task) : option Error :=
  validateDeps_loop r (Deps t).

Definition ValidateDeps (r : Registry) (t : Task) : option Error :=
  validateDepsLocked r t.

(** [allDepsCompleteLocked] *)
Fixpoint allDepsComplete_loop (r : Registry) (deps : list string) : bool :=
  match deps with
  | [] => true
  | depID :: rest =>
      match r !! depID with
      | None => false
      | Some dep =>
          if bool_decide (TaskStatus dep ≠ StatusComplete) then false
          else allDepsComplete_loop r rest
      end
  end.

Definition allDepsCompleteLocked (r : Registry) (t : Task) : bool :=
  allDepsComplete_loop r (Deps t).

(** [checkCircularLocked]. [visited map[string]bool] is shared by every
    recursive call and mutated in place, so the walk returns it. The Go
    recursion descends only into a task it has just marked visited; [fuel]
    bounds the depth of that descent and [None] means it ran out. *)
Inductive walk : Type :=
  | Cycle
  | Clear (visited : gset string).

Fixpoint checkCircularLocked (fuel : nat) (r : Registry) (startID : string)
    : list string → gset string → option walk :=
  fix loop (deps : list string) (visited : gset string) : option walk :=
    match deps with
    | [] => Some (Clear visited)
    | depID :: rest =>
        if bool_decide (depID = startID) then Some Cycle
        else if bool_decide (depID ∈ visited) then loop rest visited
        else
          let visited := {[depID]} ∪ visited in
          match r !! depID with
          | None => loop rest visited
          | Some dep =>
              match fuel with
              | O => None
              | S fuel' =>
                  match checkCircularLocked fuel' r startID (Deps dep) visited with
                  | Some (Clear visited) => loop rest visited
                  | Some Cycle => Some Cycle
                  | None => None
                  end
              end
          end
    end.

(** [Add] *)
Definition Add (r : Registry) (t : Task) : Registry * option Error :=
  match Validate t with
  | Some cause => (r, Some (ValidationError cause))
  | None =>
      match r !! ID t with
      | Some _ => (r, Some (DuplicateID (ID t)))
      | None =>
          match validateDepsLocked r t with
          | Some err => (r, Some err)
          | None => (<[ID t := t]> r, None)
          end
      end
  end.

(** [Get] *)
Definition Get (r : Registry) (id : string) : option Task * option Error :=
  match r !! id with
  | None => (None, Some (NotFound id))
  | Some t => (Some t, None)
  end.

(** [Update]; the walk starts with [make(map[string]bool)] and is given one
    unit of fuel per stored task. *)
Definition Update (r : Registry) (t : Task) : Registry * option Error :=
  match Validate t with
  | Some cause => (r, Some (ValidationError cause))
  | None =>
      match r !! ID t with
      | None => (r, Some (NotFound (ID t)))
      | Some _ =>
          match validateDepsLocked r t with
          | Some err => (r, Some err)
          | None =>
              match checkCircularLocked (size r) r (ID t) (Deps t) ∅ with
              | Some Cycle => (r, Some (CircularDependency (ID t)))
              | Some (Clear _) => (<[ID t := t]> r, None)
              | None => (r, Some WalkOutOfFuel)
              end
          end
      end
  end.

(** [Delete]: the nested loops over the stored tasks and their [Deps]. *)
Fixpoint has_dep (deps : list string) (id : string) : bool :=
  match deps with
  | [] => false
  | dep :: rest => if bool_decide (dep = id) then true else has_dep rest id
  end.

Fixpoint find_dependent (entries : list (string * Task)) (id : string) : option Task :=
  match entries with
  | [] => None
  | (_, t) :: rest => if has_dep (Deps t) id then Some t else find_dependent rest id
  end.

Definition Delete (r : Registry) (id : string) : Registry * option Error :=
  match r !! id with
  | None => (r, Some (NotFound id))
  | Some _ =>
      match find_dependent (map_to_list r) id with
      | Some t => (r, Some (HasDependents id (ID t)))
      | None => (delete id r, None)
      end
  end.

(** The query loops: [for _, task := range r.tasks { if ... { append } }]. *)
Fixpoint collect (keep : Task → bool) (entries : list (string * Task))
    (acc : slice Task) : slice Task :=
  match entries with
  | [] => acc
  | (_, t) :: rest => collect keep rest (if keep t then append acc t else acc)
  end.

(** [List]: starts from [make([]*Task, 0, len(r.tasks))]. *)
Definition List (r : Registry) : slice Task :=
  collect (λ _, true) (map_to_list r) (make_empty (size r)).

(** [ListByStatus]: starts from [var tasks []*Task]. *)
Definition ListByStatus (r : Registry) (status : Status) : slice Task :=
  collect (λ t, bool_decide (TaskStatus t = status)) (map_to_list r) nil_slice.

(** [ListByRepo]: starts from [var tasks []*Task]. *)
Definition ListByRepo (r : Registry) (repo : string) : slice Task :=
  collect (λ t, bool_decide (Repo t = repo)) (map_to_list r) nil_slice.

(** [GetReady]: starts from [var ready []*Task]. *)
Definition GetReady (r : Registry) : slice Task :=
  collect (λ t, if bool_decide (TaskStatus t ≠ StatusPending) then false
                else allDepsCompleteLocked r t)
          (map_to_list r) nil_slice.

(** [Load]. Reading and decoding the file are outside the model: the input
    is their outcome. *)
Inductive file : Type :=
  | Unreadable (cause : string)
  | Malformed (cause : string)
  | Decoded (tasks : list Task).

(** First pass: validate and install, stopping at the first invalid task. *)
Fixpoint Load_install (tasks : list Task) (r : Registry) : Registry * option Error :=
  match tasks with
  | [] => (r, None)
  | t :: rest =>
      match Validate t with
      | Some cause => (r, Some (LoadInvalidTask (ID t) cause))
      | None => Load_install rest (<[ID t := t]> r)
      end
  end.

(** Second pass: [validateDepsLocked] on every stored task. *)
Fixpoint Load_check (r : Registry) (entries : list (string * Task)) : option Error :=
  match entries with
  | [] => None
  | (_, t) :: rest =>
      match validateDepsLocked r t with
      | Some err => Some (LoadTaskError (ID t) err)
      | None => Load_check r rest
      end
  end.

Definition Load (r : Registry) (f : file) : Registry * option Error :=
  match f with
  | Unreadable cause => (r, Some (LoadReadError cause))
  | Malformed cause => (r, Some (LoadUnmarshalError cause))
  | Decoded tasks =>
      match Load_install tasks ∅ with
      | (r', Some err) => (r', Some err)
      | (r', None) => (r', Load_check r' (map_to_list r'))
      end
  end.

(** [GetDeps]: the stored tasks a task depends on, in the order of its
    [Deps]; a dependency that is not a key is skipped. On error Go returns
    the nil slice. *)
Fixpoint GetDeps_loop (r : Registry) (deps : list string) (acc : slice Task) : slice Task :=
  match deps with
  | [] => acc
  | depID :: rest =>
      GetDeps_loop r rest
        (match r !! depID with
         | Some dep => append acc dep
         | None => acc
         end)
  end.

Definition GetDeps (r : Registry) (id : string) : slice Task * option Error :=
  match r !! id with
  | None => (nil_slice, Some (NotFound id))
  | Some t => (GetDeps_loop r (Deps t) (make_empty (length (Deps t))), None)
  end.

(** [GetDependents]: the inner loop appends the task at the first of its
    [Deps] equal to [id] and breaks, which is [has_dep]. *)
Definition GetDependents (r : Registry) (id : string) : slice Task * option Error :=
  match r !! id with
  | None => (nil_slice, Some (NotFound id))
  | Some _ => (collect (λ t, has_dep (Deps t) id) (map_to_list r) nil_slice, None)
  end.

(** [Save], up to the encoder: the [registryData.Tasks] it builds from
    [make([]*Task, 0, len(r.tasks))] and hands to [json.MarshalIndent]. *)
Definition Save_data (r : Registry) : slice Task :=
  collect (λ _, true) (map_to_list r) (make_empty (size r)).

End task.

(** ** The quota tracker *)

Module quota.

(** Modelled from the spec: package [pkg/quota] is not among the sources.
    The fields are those of the "Quota Usage record"; [cmd/quota.go] reads
    them under these names ([IsExhausted] is [Exhausted] here, the method
    keeps the name). Instants and durations are seconds. *)
Record Usage : Type := mkUsage {
  Requests : Z;
  Tokens : Z;
  WindowStart : Z;
  LastRequest : Z;
  Exhausted : bool;
  RetryAfter : Z
}.

Record Tracker : Type := mkTracker {
  usage : gmap string Usage;
  limits : gmap string Z;
  window : Z
}.

(** [time.Hour] *)
Definition Hour : Z := 3600.

Definition fresh (now : Z) : Usage :=
  {| Requests := 0; Tokens := 0; WindowStart := now; LastRequest := 0;
     Exhausted := false; RetryAfter := 0 |}.

Definition usage_of (now : Z) (tr : Tracker) (backend : string) : Usage :=
  default (fresh now) (usage tr !! backend).

(** Modelled from the spec: "[SetLimit(backend, requestsPerWindow)]:
    configures an admission threshold". *)
Definition SetLimit (tr : Tracker) (backend : string) (n : Z) : Tracker :=
  {| usage := usage tr; limits := <[backend := n]> (limits tr); window := window tr |}.

(** Modelled from the spec: "[IsExhausted(backend)]: returns true if the
    backend was previously marked exhausted and [retry_after] has not yet
    elapsed; a backend with no recorded usage is never exhausted". *)
Definition IsExhausted (now : Z) (tr : Tracker) (backend : string) : bool :=
  match usage tr !! backend with
  | None => false
  | Some u => Exhausted u && (now <? RetryAfter u)
  end.

(** Modelled from the spec: "[Record(backend, tokens)]: increments
    [requests] by one and [tokens] by the given amount, updates
    [last_request]; if this increment crosses the configured limit, sets
    [is_exhausted] and computes [retry_after] as now + window size". *)
Definition Record_ (now : Z) (tr : Tracker) (backend : string) (tokens : Z) : Tracker :=
  let u := usage_of now tr backend in
  let requests := Requests u + 1 in
  let crossed :=
    match limits tr !! backend with
    | None => false
    | Some limit => limit <=? requests
    end in
  let u' :=
    {| Requests := requests; Tokens := Tokens u + tokens;
       WindowStart := WindowStart u; LastRequest := now;
       Exhausted := if crossed then true else Exhausted u;
       RetryAfter := if crossed then now + window tr else RetryAfter u |} in
  {| usage := <[backend := u']> (usage tr); limits := limits tr; window := window tr |}.

(** Modelled from the spec: "[RecordError(backend, blockDuration)]:
    explicitly marks a backend exhausted for [blockDuration] regardless of
    counters". *)
Definition RecordError (now : Z) (tr : Tracker) (backend : string) (blockDuration : Z) : Tracker :=
  let u := usage_of now tr backend in
  let u' :=
    {| Requests := Requests u; Tokens := Tokens u;
       WindowStart := WindowStart u; LastRequest := LastRequest u;
       Exhausted := true; RetryAfter := now + blockDuration |} in
  {| usage := <[backend := u']> (usage tr); limits := limits tr; window := window tr |}.

(** The number of calls recorded as usage against a backend. *)
Definition requests_of (tr : Tracker) (backend : string) : Z :=
  match usage tr !! backend with
  | None => 0
  | Some u => Requests u
  end.

End quota.

(** ** The [work] command *)

Module cmd.
Import task quota.

(** [strings.ToLower], on bytes: the ASCII capitals move down by 32. (Go
    also folds capitals outside ASCII; none of the patterns below has a
    byte outside ASCII.) *)
Definition lower_byte (c : ascii) : ascii :=
  let n := nat_of_ascii c in
  if ((65 <=? n)%nat && (n <=? 90)%nat)%bool then ascii_of_nat (n + 32) else c.

Fixpoint ToLower (s : string) : string :=
  match s with
  | EmptyString => EmptyString
  | String c s' => String (lower_byte c) (ToLower s')
  end.

(** [strings.HasPrefix] and [strings.Contains] *)
Fixpoint HasPrefix (s prefix : string) {struct prefix} : bool :=
  match prefix with
  | EmptyString => true
  | String a prefix' =>
      match s with
      | EmptyString => false
      | String b s' => if Ascii.eqb a b then HasPrefix s' prefix' else false
      end
  end.

Fixpoint Contains (s substr : string) : bool :=
  if HasPrefix s substr then true
  else match s with
       | EmptyString => false
       | String _ s' => Contains s' substr
       end.

(** [strings.Split(s, sep)] for a separator of one byte. *)
Fixpoint Split (s : string) (sep : ascii) : list string :=
  match s with
  | EmptyString => [EmptyString]
  | String c s' =>
      if Ascii.eqb c sep then EmptyString :: Split s' sep
      else match Split s' sep with
           | [] => [String c EmptyString]
           | word :: words => String c word :: words
           end
  end.

(** [isQuotaError]; a Go [error] is its text, [None] is nil. *)
Definition isQuotaError (err : option string) : bool :=
  match err with
  | None => false
  | Some text =>
      let errStr := ToLower text in
      Contains errStr "429" || Contains errStr "rate limit"
      || Contains errStr "quota" || Contains errStr "too many requests"
  end.

(** [agent.Result] *)
Record Result : Type := mkResult {
  Success : bool;
  Output : string;
  ResultError : string
}.

(** What a backend does with a task is outside the program: the four ways
    a call can end. *)
Inductive outcome : Type :=
  | StartFails (err : string)
  | CreateSessionFails (err : string)
  | RunFails (err : string)
  | RunReturns (result : Result).

(** The surroundings of one run of the command: the clock, the two
    configured default models, whether writing the MCP configuration file
    fails, and how the backend built for a name and a model behaves. *)
Record World : Type := mkWorld {
  now : Z;
  ClaudeModel : string;
  CopilotModel : string;
  generateMCPConfig : option string;
  behave : string → string → outcome
}.

Definition slash : ascii := "/"%char.

(** [runBackend]: the tracker after the call, and Go's [(result, err)]. *)
Definition runBackend (w : World) (t : Task) (backendName model : string)
    (tracker : Tracker) : Tracker * (option Result * option string) :=
  if IsExhausted (now w) tracker backendName
  then (tracker, (None, Some ("quota exhausted for backend " +:+ backendName)))
  else
    let backend : string + string :=
      if bool_decide (backendName = "claude") then
        match generateMCPConfig w with
        | Some err => inl ("failed to generate MCP config: " +:+ err)
        | None => inr (if bool_decide (model ≠ "") then model else ClaudeModel w)
        end
      else if bool_decide (backendName = "copilot") then
        inr (if bool_decide (model ≠ "") then model else CopilotModel w)
      else inl ("unknown backend: " +:+ backendName) in
    match backend with
    | inl err => (tracker, (None, Some err))
    | inr backendModel =>
        let blocked (err : string) :=
          if isQuotaError (Some err) then RecordError (now w) tracker backendName Hour
          else tracker in
        match behave w backendName backendModel with
        | StartFails err =>
            (blocked err, (None, Some ("failed to start backend: " +:+ err)))
        | CreateSessionFails err =>
            (blocked err, (None, Some ("failed to create session: " +:+ err)))
        | RunFails err => (blocked err, (None, Some err))
        | RunReturns result =>
            (if Success result then Record_ (now w) tracker backendName 10000 else tracker,
             (Some result, None))
        end
    end.

(** [runWithFailover] *)
Definition runWithFailover (w : World) (t : Task) (backendName model : string)
    (tracker : Tracker) : Tracker * (option Result * option string) :=
  let '(tracker1, (result, err)) := runBackend w t backendName model tracker in
  if bool_decide (err ≠ None) && isQuotaError err && bool_decide (Fallback t ≠ "") then
    match Split (Fallback t) slash with
    | [fallbackBackend; fallbackModel] =>
        let tracker2 := RecordError (now w) tracker1 backendName Hour in
        runBackend w t fallbackBackend fallbackModel tracker2
    | _ => (tracker1, (result, err))
    end
  else (tracker1, (result, err)).

(** [initQuotaTracker]: the loaded tracker with the two default limits. *)
Definition initQuotaTracker (loaded : Tracker) : Tracker :=
  SetLimit (SetLimit loaded "claude" 50) "copilot" 100.

(** Modelled from the spec: package [pkg/workspace] is not among the
    sources. A workspace holds the registry ("the Registry's task map is
    the single source of truth for status") and the configured default
    backend; [ws.GetTask] and [ws.GetReadyTasks] are the registry's [Get]
    and [GetReady], and [ws.Save] persists the task set. *)
Record Workspace : Type := mkWorkspace {
  Tasks : Registry;
  Backend : string;
  Saved : Registry
}.

Definition with_tasks (ws : Workspace) (r : Registry) : Workspace :=
  {| Tasks := r; Backend := Backend ws; Saved := Saved ws |}.

Definition Save (ws : Workspace) : Workspace :=
  {| Tasks := Tasks ws; Backend := Backend ws; Saved := Tasks ws |}.

(** [t] is the pointer [ws.GetTask] returned, the one the registry holds
    under [taskID]: an assignment through it rewrites the stored task. *)
Definition store (ws : Workspace) (taskID : string) (t : Task) : Workspace :=
  with_tasks ws (<[taskID := t]> (Tasks ws)).

(** [ws.Tasks.Update(t)], its error dropped as the command drops it. *)
Definition update_ignoring_error (ws : Workspace) (t : Task) : Workspace :=
  with_tasks ws (fst (Update (Tasks ws) t)).

Fixpoint isReady_loop (ready : list Task) (taskID : string) : bool :=
  match ready with
  | [] => false
  | r :: rest => if bool_decide (ID r = taskID) then true else isReady_loop rest taskID
  end.

(** [workCmd.RunE]. [workBackend] is the [--backend] flag, [taskFile] the
    [(Model, Fallback)] of the task file when [ParseTaskFile] succeeds, and
    [loaded] the tracker read from the quota file. The result is the
    workspace and the tracker when the command returns, and its error. *)
Definition RunE (w : World) (ws : Workspace) (taskID workBackend : string)
    (taskFile : option (string * string)) (loaded : Tracker)
    : Workspace * Tracker * option string :=
  match Get (Tasks ws) taskID with
  | (None, _) => (ws, loaded, Some ("task '" +:+ taskID +:+ "' not found"))
  | (Some t, _) =>
      if bool_decide (TaskStatus t ≠ StatusPending) then
        (ws, loaded,
         Some ("task " +:+ taskID +:+ " is not pending (status: " +:+ TaskStatus t +:+ ")"))
      else if negb (isReady_loop (elems (GetReady (Tasks ws))) taskID) then
        (ws, loaded, Some ("task " +:+ taskID +:+ " has incomplete dependencies"))
      else
        let '(ws, t) :=
          match taskFile with
          | Some (fileModel, fileFallback) =>
              if bool_decide (fileModel ≠ "")
              then (store ws taskID (with_routing t fileModel fileFallback),
                    with_routing t fileModel fileFallback)
              else (ws, t)
          | None => (ws, t)
          end in
        let '(backendName, model) :=
          if bool_decide (workBackend ≠ "") then (workBackend, "")
          else if bool_decide (Model t ≠ "") then
            match Split (Model t) slash with
            | [b; m] => (b, m)
            | _ => (Backend ws, "")
            end
          else (Backend ws, "") in
        match SetStatus (now w) t StatusInProgress with
        | (_, Some _) =>
            (* [return err]; never taken, [t] being pending here *)
            (ws, loaded,
             Some ("invalid transition from " +:+ TaskStatus t +:+ " to " +:+ StatusInProgress))
        | (t, None) =>
            let ws := Save (update_ignoring_error (store ws taskID t) t) in
            let tracker := initQuotaTracker loaded in
            match runWithFailover w t backendName model tracker with
            | (tracker, (_, Some err)) => (ws, tracker, Some ("agent failed: " +:+ err))
            | (tracker, (None, None)) => (ws, tracker, None)
            | (tracker, (Some result, None)) =>
                if Success result then (ws, tracker, None)
                else
                  let t := fst (SetStatus (now w) t StatusFailed) in
                  (Save (update_ignoring_error (store ws taskID t) t), tracker, None)
            end
        end
  end.

End cmd.

(** ** The tools that drive the registry *)

Module tools.
Import task.

(** An error of a handler: one it builds itself with [fmt.Errorf], or the
    registry's or the task's error returned as it is. *)
Inductive ToolError : Type :=
  | Message (text : string)
  | FromRegistry (err : Error).

(** [Args] is [map[string]any]; the handlers only ever read three keys with
    the assertion [.(string)], so an argument is its string when the key is
    present and holds a string, and [None] otherwise. *)
Record Args : Type := mkArgs {
  arg_status : option string;
  arg_repo : option string;
  arg_task_id : option string
}.

(** [handleTaskList], up to the encoder: the slice handed to
    [json.MarshalIndent]. With both filters the handler ranges over [List()]
    itself, starting from [var tasks []*task.Task]. *)
Fixpoint filter_both (all : list Task) (statusFilter repoFilter : string)
    (acc : slice Task) : slice Task :=
  match all with
  | [] => acc
  | t :: rest =>
      filter_both rest statusFilter repoFilter
        (if bool_decide (TaskStatus t = statusFilter) && bool_decide (Repo t = repoFilter)
         then append acc t else acc)
  end.

Definition handleTaskList (taskReg : Registry) (args : Args) : slice Task :=
  let tasks :=
    match arg_status args, arg_repo args with
    | Some statusFilter, Some repoFilter =>
        filter_both (elems (List taskReg)) statusFilter repoFilter nil_slice
    | Some statusFilter, None => ListByStatus taskReg statusFilter
    | None, Some repoFilter => ListByRepo taskReg repoFilter
    | None, None => List taskReg
    end in
  (* Handle nil slice *)
  if is_nil tasks then mk_slice [] else tasks.

(** The loop of [handleTaskClaim] over the resolved dependencies: the first
    one that is not complete. *)
Fixpoint first_incomplete (deps : list Task) : option Task :=
  match deps with
  | [] => None
  | dep :: rest =>
      if bool_decide (TaskStatus dep ≠ StatusComplete) then Some dep
      else first_incomplete rest
  end.

(** [handleTaskClaim]. [t] is the pointer [Get] returned: [SetStatus]
    rewrites the task the registry holds before [Update] is called. The
    result is the registry after the call and Go's [(string, error)]. *)
Definition handleTaskClaim (now : Z) (taskReg : Registry) (args : Args)
    : Registry * (string * option ToolError) :=
  match arg_task_id args with
  | None => (taskReg, ("", Some (Message "task_id is required")))
  | Some taskID =>
      match Get taskReg taskID with
      | (None, err) => (taskReg, ("", FromRegistry <$> err))
      | (Some t, _) =>
          if bool_decide (TaskStatus t ≠ StatusPending) then
            (taskReg,
             ("", Some (Message ("task '" +:+ taskID +:+ "' is not pending (status: "
                                 +:+ TaskStatus t +:+ ")"))))
          else
            match first_incomplete (elems (fst (GetDeps taskReg taskID))) with
            | Some dep =>
                (taskReg,
                 ("", Some (Message ("dependency '" +:+ ID dep
                                     +:+ "' is not complete (status: "
                                     +:+ TaskStatus dep +:+ ")"))))
            | None =>
                match SetStatus now t StatusInProgress with
                | (_, Some err) => (taskReg, ("", Some (FromRegistry err)))
                | (t, None) =>
                    match Update (<[taskID := t]> taskReg) t with
                    | (taskReg, Some err) => (taskReg, ("", Some (FromRegistry err)))
                    | (taskReg, None) =>
                        (taskReg, ("Task '" +:+ taskID +:+ "' claimed successfully", None))
                    end
                end
            end
      end
  end.

(** [TestRunner.Run]: [(pass, output, err)] for a task ID; the runner may
    be nil. *)
Definition TestRunner : Type := option (string → bool * string * option string).

(** [handleTaskComplete] *)
Definition handleTaskComplete (now : Z) (taskReg : Registry) (testRunner : TestRunner)
    (args : Args) : Registry * (string * option ToolError) :=
  match arg_task_id args with
  | None => (taskReg, ("", Some (Message "task_id is required")))
  | Some taskID =>
      match Get taskReg taskID with
      | (None, err) => (taskReg, ("", FromRegistry <$> err))
      | (Some t, _) =>
          if bool_decide (TaskStatus t ≠ StatusInProgress) then
            (taskReg,
             ("", Some (Message ("task '" +:+ taskID +:+ "' is not in progress (status: "
                                 +:+ TaskStatus t +:+ ")"))))
          else
            let tests : option string :=
              match testRunner with
              | None => None
              | Some run =>
                  match run taskID with
                  | (_, _, Some err) => Some ("failed to run tests: " +:+ err)
                  | (false, output, None) =>
                      Some ("tests failed - cannot complete task:" +:+ String "010"%char output)
                  | (true, _, None) => None
                  end
              end in
            match tests with
            | Some text => (taskReg, ("", Some (Message text)))
            | None =>
                match SetStatus now t StatusComplete with
                | (_, Some err) => (taskReg, ("", Some (FromRegistry err)))
                | (t, None) =>
                    match Update (<[taskID := t]> taskReg) t with
                    | (taskReg, Some err) => (taskReg, ("", Some (FromRegistry err)))
                    | (taskReg, None) =>
                        (taskReg, ("Task '" +:+ taskID +:+ "' completed successfully", None))
                    end
                end
            end
      end
  end.

End tools.

(** ** Authorization *)

Module auth.

(** [basicPermission] and [basicRole], the implementations the package
    gives of its two interfaces. *)
Record Permission : Type := NewPermission {
  Resource : string;
  Action : string
}.

Record Role : Type := NewRole {
  Name : string;
  Permissions : list Permission
}.

(** The loop [DefaultAuthorizer.Authorize] and
    [DefaultAuthorizer.HasPermission] share: an exact match, or a match in
    which ["*"] stands for any resource or any action. *)
Fixpoint grants (perms : list Permission) (resource action : string) : bool :=
  match perms with
  | [] => false
  | perm :: rest =>
      if bool_decide (Resource perm = resource) && bool_decide (Action perm = action)
      then true
      else
        let resourceMatch :=
          bool_decide (Resource perm = resource) || bool_decide (Resource perm = "*") in
        let actionMatch :=
          bool_decide (Action perm = action) || bool_decide (Action perm = "*") in
        if resourceMatch && actionMatch then true else grants rest resource action
  end.

(** [DefaultAuthorizer.Authorize]; [None] is nil. *)
Definition Authorize (role : Role) (resource action : string) : option string :=
  if grants (Permissions role) resource action then None
  else Some ("unauthorized: role '" +:+ Name role +:+ "' lacks permission "
             +:+ resource +:+ ":" +:+ action).

(** [DefaultAuthorizer.HasPermission] *)
Definition HasPermission (role : Role) (permission : Permission) : bool :=
  grants (Permissions role) (Resource permission) (Action permission).

End auth.

(** * Vocabulary of the properties *)

Import task quota cmd.

(** ** Registry and status machine *)

(** A task is stored when some key of the map holds it. *)
Definition stored (r : Registry) (t : Task) : Prop := ∃ id, r !! id = Some t.

(** Every dependency resolves to a stored task whose status is complete. *)
Definition deps_complete (r : Registry) (deps : list string) : Prop :=
  ∀ depID, depID ∈ deps → ∃ dep, r !! depID = Some dep ∧ TaskStatus dep = StatusComplete.

Definition ready (r : Registry) (t : Task) : Prop :=
  TaskStatus t = StatusPending ∧ deps_complete r (Deps t).

(** The transitions of the status machine. *)
Definition allowed_transitions : list (Status * Status) :=
  [ (StatusPending, StatusInProgress);
    (StatusInProgress, StatusComplete);
    (StatusInProgress, StatusFailed);
    (StatusFailed, StatusPending) ].

(** [a] depends on [b]: the task stored under [a] lists [b]. *)
Definition edge (r : Registry) (a b : string) : Prop :=
  ∃ t, r !! a = Some t ∧ b ∈ Deps t.

(** The same edge, when its source is not [s]. *)
Definition edge_off (s : string) (r : Registry) (a b : string) : Prop :=
  a ≠ s ∧ edge r a b.

Definition acyclic (r : Registry) : Prop := ∀ a, ¬ tc (edge r) a a.

Definition resolved (r : Registry) : Prop :=
  ∀ id t depID, r !! id = Some t → depID ∈ Deps t → is_Some (r !! depID).

Definition graph_invariant (r : Registry) : Prop := acyclic r ∧ resolved r.

(** The four writes of the registry, and the registries they lead to from
    the empty one by successful calls; [loads] tells whether [Load] may be
    among them. *)
Inductive op : Type :=
  | OpAdd (t : Task)
  | OpUpdate (t : Task)
  | OpDelete (id : string)
  | OpLoad (f : file).

Definition apply_op (r : Registry) (o : op) : Registry * option Error :=
  match o with
  | OpAdd t => Add r t
  | OpUpdate t => Update r t
  | OpDelete id => Delete r id
  | OpLoad f => Load r f
  end.

Definition is_Load (o : op) : bool :=
  match o with
  | OpLoad _ => true
  | _ => false
  end.

Inductive reaches (loads : bool) : Registry → Prop :=
  | reaches_new : reaches loads NewRegistry
  | reaches_step r o :
      reaches loads r →
      (is_Load o = true → loads = true) →
      snd (apply_op r o) = None →
      reaches loads (fst (apply_op r o)).

(** ** Quota signals *)







(** ** Scenarios: the tasks, registries and backends of the tests *)

Definition oauth : Task := New 0 "ua-001" "Implement OAuth".

(** A workspace holding that one pending task, just saved. *)
Definition ws0 : Workspace :=
  {| Tasks := {["ua-001" := oauth]}; Backend := "claude"; Saved := {["ua-001" := oauth]} |}.

(** The tracker before any call. *)
Definition no_usage : Tracker := {| usage := ∅; limits := ∅; window := Hour |}.

(** Every backend fails its run with the same error text. *)
Definition failing (text : string) : World :=
  {| now := 100; ClaudeModel := "sonnet"; CopilotModel := "gpt-4";
     generateMCPConfig := None; behave := λ _ _, RunFails text |}.

(** The stored status of a task after the command, in memory and as last
    saved. *)
Definition status_after (out : Workspace * Tracker * option string) (taskID : string)
    : option Status * option Status :=
  (TaskStatus <$> Tasks (out.1.1) !! taskID, TaskStatus <$> Saved (out.1.1) !! taskID).

(** The tasks of [TestRegistryCircularDependency]. *)
Definition tA : Task := New 0 "ua-A" "A".
Definition tB : Task := with_deps (New 0 "ua-B" "B") ["ua-A"].
Definition tC : Task := with_deps (New 0 "ua-C" "C") ["ua-B"].

(** The registry of [TestRegistryCircularDependency] before its [Update]. *)
Definition abc : Registry :=
  fst (Add (fst (Add (fst (Add NewRegistry tA)) tB)) tC).

(** [claude] answers 429 and [copilot] completes the task. *)
Definition claude_limited : World :=
  {| now := 100; ClaudeModel := "sonnet"; CopilotModel := "gpt-4";
     generateMCPConfig := None;
     behave := λ backendName _,
       if bool_decide (backendName = "claude") then RunFails "429 Too Many Requests"
       else RunReturns {| Success := true; Output := "done"; ResultError := "" |} |}.

(** The task routed to claude, with copilot as its fallback. *)
Definition oauth_routed : Task := with_routing oauth "claude/opus" "copilot/gpt-4".

(** ** Well-formed registries *)

(** Every task is stored under its own ID. *)
Definition keyed (r : Registry) : Prop := ∀ k t, r !! k = Some t → ID t = k.

(** Every stored task passes [Validate]. *)
Definition all_valid (r : Registry) : Prop := ∀ k t, r !! k = Some t → Validate t = None.

(** The tasks of a list whose ID is [k], in the order of the list. *)
Definition with_ID (k : string) (tasks : list Task) : list Task :=
  List.filter (λ t, bool_decide (ID t = k)) tasks.

(** The longest prefix of a list made of valid tasks. *)
Fixpoint valid_prefix (tasks : list Task) : list Task :=
  match tasks with
  | [] => []
  | t :: rest =>
      match Validate t with
      | None => t :: valid_prefix rest
      | Some _ => []
      end
  end.

(** A permission covers a request when each of its two parts is the
    requested one or the wildcard. *)
Definition covers (perm : auth.Permission) (resource action : string) : Prop :=
  (auth.Resource perm = resource ∨ auth.Resource perm = "*"%string)
  ∧ (auth.Action perm = action ∨ auth.Action perm = "*"%string).

(** The outcome of the tests that lets [handleTaskComplete] go on. *)
Definition tests_pass (testRunner : tools.TestRunner) (taskID : string) : Prop :=
  match testRunner with
  | None => True
  | Some run => ∃ output, run taskID = (true, output, None)
  end.

(** The arguments of a tool call on task ua-A, and the registry [abc]
    after ua-A has been claimed. *)
Definition claim_A : tools.Args :=
  {| tools.arg_status := None; tools.arg_repo := None;
     tools.arg_task_id := Some "ua-A"%string |}.

Definition abc_claimed : Registry :=
  fst (Update abc (with_status tA StatusInProgress 1)).

(** * Properties *)

(** ** Slices and the query loop *)

Section collect_facts.
Context (keep : Task → bool).

Lemma elem_of_collect entries acc t :
  t ∈ elems (collect keep entries acc)
  ↔ t ∈ elems acc ∨ ∃ k, (k, t) ∈ entries ∧ keep t = true.
Proof.
  revert acc. induction entries as [|[k' t'] rest IH]; intros acc; simpl.
  - split; [auto | intros [?|(k & Hk & _)]; [done | by apply elem_of_nil in Hk]].
  - rewrite IH. destruct (keep t') eqn:Hkeep.
    + assert (Happ : t ∈ elems (append acc t') ↔ t ∈ elems acc ∨ t = t').
      { destruct acc; simpl; [|rewrite elem_of_app];
          rewrite list_elem_of_singleton; [|done].
        split; [auto | intros [H|H]; [by apply elem_of_nil in H | done]]. }
      rewrite Happ. split.
      * intros [[?| ->]|(k & Hk & ?)]; [by left | |].
        -- right. exists k'. split; [left | done].
        -- right. exists k. split; [by right | done].
      * intros [?|(k & Hk & ?)]; [by left; left |].
        apply elem_of_cons in Hk as [[= -> ->]|Hk]; [left; by right |].
        right. by exists k.
    + split.
      * intros [?|(k & Hk & ?)]; [by left |]. right. exists k. split; [by right | done].
      * intros [?|(k & Hk & ?)]; [by left |].
        apply elem_of_cons in Hk as [[= -> ->]|Hk]; [congruence |].
        right. by exists k.
Qed.

Lemma is_nil_append (acc : slice Task) t : is_nil (append acc t) = false.
Proof. by destruct acc. Qed.

Lemma is_nil_collect entries acc :
  is_nil (collect keep entries acc) = true
  ↔ is_nil acc = true ∧ ∀ k t, (k, t) ∈ entries → keep t = false.
Proof.
  revert acc. induction entries as [|[k' t'] rest IH]; intros acc; simpl.
  - split; [intros Hacc; split; [done | intros ?? Hin; by apply elem_of_nil in Hin] | by intros []].
  - rewrite IH. destruct (keep t') eqn:Hkeep.
    + rewrite is_nil_append. split; [by intros [] |].
      intros [_ H]. specialize (H k' t' ltac:(left)). congruence.
    + split; intros [Hacc H]; (split; [done|]); intros k t Hin.
      * apply elem_of_cons in Hin as [[= -> ->]|Hin]; [done | by eapply H].
      * eapply H. by right.
Qed.
End collect_facts.

Lemma elem_of_collect_registry keep (r : Registry) t :
  t ∈ elems (collect keep (map_to_list r) nil_slice) ↔ stored r t ∧ keep t = true.
Proof.
  rewrite elem_of_collect. simpl. split.
  - intros [H|(k & Hk & ?)]; [by apply elem_of_nil in H |].
    apply elem_of_map_to_list in Hk. split; [by exists k | done].
  - intros [[k Hk] ?]. right. exists k. by rewrite elem_of_map_to_list.
Qed.

Lemma is_nil_collect_registry keep (r : Registry) :
  is_nil (collect keep (map_to_list r) nil_slice) = true
  ↔ ∀ t, stored r t → keep t = false.
Proof.
  rewrite is_nil_collect. simpl. split.
  - intros [_ H] t [k Hk]. apply (H k). by apply elem_of_map_to_list.
  - intros H. split; [done|]. intros k t Hin. apply H. exists k.
    by apply elem_of_map_to_list.
Qed.

(** ** The ready set *)

Lemma allDepsComplete_loop_spec (r : Registry) deps :
  allDepsComplete_loop r deps = true ↔ deps_complete r deps.
Proof.
  unfold deps_complete. induction deps as [|d rest IH]; simpl.
  - split; [intros _ ? H; by apply elem_of_nil in H | done].
  - destruct (r !! d) as [dep|] eqn:Hd.
    + case_bool_decide as Hst.
      * split; [done |]. intros H. destruct (H d) as (dep' & Hdep' & ?); [left|].
        congruence.
      * rewrite IH. split.
        -- intros H x Hx. apply elem_of_cons in Hx as [->|Hx]; [|by apply H].
           exists dep. split; [done|]. by destruct (decide (TaskStatus dep = StatusComplete)).
        -- intros H x Hx. apply H. by right.
    + split; [done|]. intros H. destruct (H d) as (dep' & Hdep' & ?); [left|]. congruence.
Qed.

Lemma keep_ready_spec (r : Registry) t :
  (if bool_decide (TaskStatus t ≠ StatusPending) then false
   else allDepsCompleteLocked r t) = true ↔ ready r t.
Proof.
  unfold ready, allDepsCompleteLocked. case_bool_decide as Hst.
  - split; [done | by intros []].
  - rewrite allDepsComplete_loop_spec.
    destruct (decide (TaskStatus t = StatusPending)); [tauto | done].
Qed.

Lemma elem_of_GetReady (r : Registry) (t : Task) :
  t ∈ elems (GetReady r) ↔ stored r t ∧ ready r t.
Proof. unfold GetReady. rewrite elem_of_collect_registry. by rewrite keep_ready_spec. Qed.

(** C1. [GetReady] returns exactly the stored tasks that are pending and
    whose every dependency resolves to a stored task that is complete; a
    stored pending task without dependencies is always among them. *)
Theorem GetReady_exact (r : Registry) (t : Task) :
  (t ∈ elems (GetReady r) ↔ stored r t ∧ ready r t)
  ∧ (stored r t ∧ TaskStatus t = StatusPending ∧ Deps t = [] → t ∈ elems (GetReady r)).
Proof.
  split; [apply elem_of_GetReady|]. intros (Hst & Hp & Hd).
  apply elem_of_GetReady. split; [done|].
  split; [done|]. rewrite Hd. intros ? H. by apply elem_of_nil in H.
Qed.


(** ** The list queries *)

Lemma elem_of_List (r : Registry) t : t ∈ elems (List r) ↔ stored r t.
Proof.
  unfold List, make_empty. rewrite elem_of_collect. simpl. split.
  - intros [H|(k & Hk & _)]; [by apply elem_of_nil in H |].
    exists k. by apply elem_of_map_to_list.
  - intros [k Hk]. right. exists k. by rewrite elem_of_map_to_list.
Qed.

Lemma List_not_nil (r : Registry) : is_nil (List r) = false.
Proof.
  unfold List, make_empty. destruct (is_nil _) eqn:E; [|done].
  by apply is_nil_collect in E as [? _].
Qed.

Lemma elems_of_nil {A} (s : slice A) : is_nil s = true → elems s = [].
Proof. by destruct s. Qed.

(** C9, as the specification words it, fails: on a registry without a
    match, [ListByStatus] and [ListByRepo] return the nil slice. *)
Lemma ListBy_returns_nil :
  is_nil (ListByStatus NewRegistry StatusPending) = true
  ∧ is_nil (ListByRepo NewRegistry "android") = true
  ∧ is_nil (ListByStatus {["ua-001" := New 0 "ua-001" "First"]} StatusFailed) = true.
Proof. by vm_compute. Qed.

(** C9, amended. [List] returns a slice that is not nil, holding exactly
    the stored tasks (so it is empty on the empty registry); [ListByStatus]
    and [ListByRepo] hold exactly the stored tasks that match, and return
    the nil slice, of length zero, exactly when no stored task matches. The
    three are functions of the registry alone: none of them changes it. *)
Theorem List_queries (r : Registry) (status : Status) (repo : string) :
  (is_nil (List r) = false ∧ ∀ t, t ∈ elems (List r) ↔ stored r t)
  ∧ (∀ t, t ∈ elems (ListByStatus r status) ↔ stored r t ∧ TaskStatus t = status)
  ∧ (∀ t, t ∈ elems (ListByRepo r repo) ↔ stored r t ∧ Repo t = repo)
  ∧ (is_nil (ListByStatus r status) = true
     ↔ ∀ t, stored r t → TaskStatus t ≠ status)
  ∧ (is_nil (ListByRepo r repo) = true ↔ ∀ t, stored r t → Repo t ≠ repo)
  ∧ ((∀ t, stored r t → TaskStatus t ≠ status) → length (elems (ListByStatus r status)) = 0%nat)
  ∧ ((∀ t, stored r t → Repo t ≠ repo) → length (elems (ListByRepo r repo)) = 0%nat).
Proof.
  assert (HS : is_nil (ListByStatus r status) = true
               ↔ ∀ t, stored r t → TaskStatus t ≠ status).
  { unfold ListByStatus. rewrite is_nil_collect_registry.
    split; intros H t Ht; specialize (H t Ht).
    - by apply bool_decide_eq_false in H.
    - by apply bool_decide_eq_false. }
  assert (HR : is_nil (ListByRepo r repo) = true ↔ ∀ t, stored r t → Repo t ≠ repo).
  { unfold ListByRepo. rewrite is_nil_collect_registry.
    split; intros H t Ht; specialize (H t Ht).
    - by apply bool_decide_eq_false in H.
    - by apply bool_decide_eq_false. }
  repeat split; try (apply HS; done); try (apply HR; done).
  - apply List_not_nil.
  - by apply elem_of_List.
  - by apply elem_of_List.
  - unfold ListByStatus in *. by apply elem_of_collect_registry in H as [? _].
  - unfold ListByStatus in *.
    apply elem_of_collect_registry in H as [_ H]. by apply bool_decide_eq_true in H.
  - intros [? ?]. unfold ListByStatus. apply elem_of_collect_registry.
    split; [done|]. by apply bool_decide_eq_true.
  - unfold ListByRepo in *. by apply elem_of_collect_registry in H as [? _].
  - unfold ListByRepo in *.
    apply elem_of_collect_registry in H as [_ H]. by apply bool_decide_eq_true in H.
  - intros [? ?]. unfold ListByRepo. apply elem_of_collect_registry.
    split; [done|]. by apply bool_decide_eq_true.
  - intros H. apply HS in H. by rewrite (elems_of_nil _ H).
  - intros H. apply HR in H. by rewrite (elems_of_nil _ H).
Qed.

(** ** Failed writes *)

(** C8. When [Add] or [Update] returns an error, the registry after the
    call is the registry before it. *)
Theorem failed_write_keeps_registry (r : Registry) (t : Task) :
  (snd (Add r t) ≠ None → fst (Add r t) = r)
  ∧ (snd (Update r t) ≠ None → fst (Update r t) = r).
Proof.
  split.
  - unfold Add. destruct (Validate t); [done|].
    destruct (r !! ID t); [done|]. by destruct (validateDepsLocked r t).
  - unfold Update. destruct (Validate t); [done|].
    destruct (r !! ID t); [|done]. destruct (validateDepsLocked r t); [done|].
    by destruct (checkCircularLocked _ _ _ _ _) as [[|]|].
Qed.

(** ** The status machine *)

Lemma canTransition_allowed from to :
  canTransition from to = true ↔ (from, to) ∈ allowed_transitions.
Proof.
  unfold canTransition, allowed_transitions.
  rewrite !orb_true_iff, !andb_true_iff, !bool_decide_eq_true.
  rewrite !elem_of_cons, elem_of_nil. split.
  - intros [[[[-> ->]|[-> ->]]|[-> ->]]|[-> ->]]; auto.
  - intros [[= -> ->]|[[= -> ->]|[[= -> ->]|[[= -> ->]|[]]]]]; auto.
Qed.

(** The seven cases of [TestStatusTransitions]. *)
Example SetStatus_cases :
  let outcome_of from to := snd (SetStatus 1 (with_status oauth from 0) to) in
  outcome_of StatusPending StatusInProgress = None
  ∧ outcome_of StatusPending StatusComplete = Some (InvalidTransition StatusPending StatusComplete)
  ∧ outcome_of StatusInProgress StatusComplete = None
  ∧ outcome_of StatusInProgress StatusFailed = None
  ∧ outcome_of StatusComplete StatusPending = Some (InvalidTransition StatusComplete StatusPending)
  ∧ outcome_of StatusComplete StatusInProgress
    = Some (InvalidTransition StatusComplete StatusInProgress)
  ∧ outcome_of StatusFailed StatusPending = None.
Proof. by vm_compute. Qed.

(** C4. [SetStatus] succeeds exactly on pending -> in_progress,
    in_progress -> complete, in_progress -> failed and failed -> pending,
    and then the task has the new status; on every other pair it fails with
    [InvalidTransition] and the task is unchanged. In particular
    pending -> complete, complete -> pending and complete -> in_progress
    fail. *)
Theorem SetStatus_transitions (now : Z) (t : Task) (to : Status) :
  (snd (SetStatus now t to) = None ↔ (TaskStatus t, to) ∈ allowed_transitions)
  ∧ (snd (SetStatus now t to) = None → TaskStatus (fst (SetStatus now t to)) = to)
  ∧ (snd (SetStatus now t to) ≠ None →
       SetStatus now t to = (t, Some (InvalidTransition (TaskStatus t) to)))
  ∧ ((StatusPending, StatusComplete) ∉ allowed_transitions)
  ∧ ((StatusComplete, StatusPending) ∉ allowed_transitions)
  ∧ ((StatusComplete, StatusInProgress) ∉ allowed_transitions).
Proof.
  rewrite <- canTransition_allowed. unfold SetStatus.
  destruct (canTransition (TaskStatus t) to) eqn:E; simpl.
  - repeat split; try done; by rewrite <- canTransition_allowed.
  - repeat split; try done; by rewrite <- canTransition_allowed.
Qed.

(** ** The dependency graph and the walk of [checkCircularLocked] *)

Section walk.
Context (r : Registry) (startID : string).

Lemma checkCircularLocked_nil fuel visited :
  checkCircularLocked fuel r startID [] visited = Some (Clear visited).
Proof. by destruct fuel. Qed.

Lemma checkCircularLocked_cons fuel depID rest visited :
  checkCircularLocked fuel r startID (depID :: rest) visited =
    if bool_decide (depID = startID) then Some Cycle
    else if bool_decide (depID ∈ visited)
         then checkCircularLocked fuel r startID rest visited
    else
      match r !! depID with
      | None => checkCircularLocked fuel r startID rest ({[depID]} ∪ visited)
      | Some dep =>
          match fuel with
          | O => None
          | S fuel' =>
              match checkCircularLocked fuel' r startID (Deps dep) ({[depID]} ∪ visited) with
              | Some (Clear visited') => checkCircularLocked fuel r startID rest visited'
              | Some Cycle => Some Cycle
              | None => None
              end
          end
      end.
Proof. by destruct fuel. Qed.

(** The walk always returns when it has one unit of fuel per stored task
    that is not yet visited, and it only ever adds to [visited]. *)
Lemma checkCircularLocked_returns fuel deps visited :
  (size (dom r ∖ visited) ≤ fuel)%nat →
  ∃ w, checkCircularLocked fuel r startID deps visited = Some w
       ∧ ∀ visited', w = Clear visited' → visited ⊆ visited'.
Proof.
  revert deps visited. induction fuel as [fuel IHf] using lt_wf_ind.
  induction deps as [|depID rest IHd]; intros visited Hsize.
  - rewrite checkCircularLocked_nil. eexists. split; [done|]. by intros ? [= ->].
  - rewrite checkCircularLocked_cons.
    case_bool_decide; [by eexists|].
    case_bool_decide; [by apply IHd|].
    assert (Hmono : (size (dom r ∖ ({[depID]} ∪ visited)) ≤ size (dom r ∖ visited))%nat)
      by (apply subseteq_size; set_solver).
    destruct (r !! depID) as [dep|] eqn:Hdep.
    + assert (Hlt : (size (dom r ∖ ({[depID]} ∪ visited)) < size (dom r ∖ visited))%nat).
      { apply subset_size. split; [set_solver|].
        intros Hsub. assert (depID ∈ dom r ∖ visited) as Hin.
        { apply elem_of_difference. split; [|done]. apply elem_of_dom. by eexists. }
        apply Hsub in Hin. set_solver. }
      destruct fuel as [|fuel']; [lia|].
      destruct (IHf fuel' ltac:(lia) (Deps dep) ({[depID]} ∪ visited) ltac:(lia))
        as ([|v1] & -> & Hv1); [by eexists|].
      specialize (Hv1 v1 eq_refl).
      destruct (IHd v1) as (w & -> & Hw).
      { etrans; [|apply Hsize]. etrans; [|apply Hmono].
        apply subseteq_size. set_solver. }
      exists w. split; [done|]. intros v' ->. specialize (Hw v' eq_refl). set_solver.
    + destruct (IHd ({[depID]} ∪ visited) ltac:(lia)) as (w & -> & Hw).
      exists w. split; [done|]. intros v' ->. specialize (Hw v' eq_refl). set_solver.
Qed.

(** A walk that reports a cycle has followed edges, none of them out of
    [startID], from one of [deps] to [startID]. *)
Lemma checkCircularLocked_cycle fuel deps visited :
  checkCircularLocked fuel r startID deps visited = Some Cycle →
  ∃ d, d ∈ deps ∧ rtc (edge_off startID r) d startID.
Proof.
  revert deps visited. induction fuel as [fuel IHf] using lt_wf_ind.
  induction deps as [|depID rest IHd]; intros visited.
  - by rewrite checkCircularLocked_nil.
  - rewrite checkCircularLocked_cons.
    assert (Hrest : ∀ v, checkCircularLocked fuel r startID rest v = Some Cycle →
              ∃ d, d ∈ depID :: rest ∧ rtc (edge_off startID r) d startID).
    { intros v Hv. destruct (IHd v Hv) as (d & ? & ?). exists d. split; [by right|done]. }
    case_bool_decide as Hstart; [subst; intros _; exists startID; split; [left|done]|].
    case_bool_decide; [by apply Hrest|].
    destruct (r !! depID) as [dep|] eqn:Hdep; [|by apply Hrest].
    destruct fuel as [|fuel']; [done|].
    destruct (checkCircularLocked fuel' r startID (Deps dep) _) as [[|v1]|] eqn:Hinner;
      [|by apply Hrest|done].
    intros _. apply IHf in Hinner as (d & Hd & Hpath); [|lia].
    exists depID. split; [left|]. eapply rtc_l; [|done].
    split; [done|]. by exists dep.
Qed.

(** A walk that reports no cycle has visited every one of [deps], none of
    which is [startID], and every task it added to [visited] is other
    than [startID] and has all its own dependencies in [visited]. *)
Lemma checkCircularLocked_clear fuel deps visited visited' :
  checkCircularLocked fuel r startID deps visited = Some (Clear visited') →
  visited ⊆ visited'
  ∧ (∀ d, d ∈ deps → d ∈ visited' ∧ d ≠ startID)
  ∧ (∀ x, x ∈ visited' → x ∉ visited →
       x ≠ startID ∧ ∀ y, edge r x y → y ∈ visited').
Proof.
  revert deps visited visited'. induction fuel as [fuel IHf] using lt_wf_ind.
  induction deps as [|depID rest IHd]; intros visited visited'.
  - rewrite checkCircularLocked_nil. intros [= ->].
    split; [done|]. split; [intros ? H; by apply elem_of_nil in H | done].
  - rewrite checkCircularLocked_cons.
    case_bool_decide as Hstart; [done|].
    case_bool_decide as Hvis.
    { intros (Hsub & Hdeps & Hclosed)%IHd. split; [done|]. split; [|done].
      intros d [->|Hd]%elem_of_cons; [|by apply Hdeps]. split; [set_solver|done]. }
    destruct (r !! depID) as [dep|] eqn:Hdep.
    + destruct fuel as [|fuel']; [done|].
      destruct (checkCircularLocked fuel' r startID (Deps dep) _) as [[|v1]|] eqn:Hinner;
        [done| |done].
      apply IHf in Hinner as (Hsub1 & Hdeps1 & Hclosed1); [|lia].
      intros (Hsub & Hdeps & Hclosed)%IHd.
      split; [set_solver|]. split.
      * intros d [->|Hd]%elem_of_cons; [|by apply Hdeps]. split; [set_solver|done].
      * intros x Hx Hnx.
        destruct (decide (x ∈ v1)) as [Hx1|Hx1]; [|by apply Hclosed].
        destruct (decide (x = depID)) as [->|Hne].
        -- split; [done|]. intros y (t & Ht & Hy).
           assert (t = dep) as -> by congruence.
           apply Hsub. by apply Hdeps1.
        -- destruct (Hclosed1 x Hx1 ltac:(set_solver)) as [? Hsucc].
           split; [done|]. intros y Hy. apply Hsub. by apply Hsucc.
    + intros (Hsub & Hdeps & Hclosed)%IHd.
      split; [set_solver|]. split.
      * intros d [->|Hd]%elem_of_cons; [|by apply Hdeps]. split; [set_solver|done].
      * intros x Hx Hnx.
        destruct (decide (x = depID)) as [->|Hne]; [|apply Hclosed; set_solver].
        split; [done|]. intros y (t & Ht & _). congruence.
Qed.
End walk.

(** ** Writing a task into the graph *)

Lemma tc_subrel {A} (R1 R2 : relation A) x y :
  (∀ a b, R1 a b → R2 a b) → tc R1 x y → tc R2 x y.
Proof. intros Hsub. induction 1; [apply tc_once | eapply tc_l]; eauto. Qed.

Lemma tc_last_step {A} (R : relation A) x y : tc R x y → ∃ z, R z y.
Proof. induction 1; eauto. Qed.

(** A path either avoids [s] as a source or comes back to [s]. *)
Lemma tc_split_at `{EqDecision A} (R : relation A) (s x y : A) :
  tc R x y → tc (λ a b, a ≠ s ∧ R a b) x y ∨ (rtc R x s ∧ tc R s y).
Proof.
  induction 1 as [x y Hstep|x z y Hstep Hrest IH].
  - destruct (decide (x = s)) as [->|Hne]; [right; split; [done|by apply tc_once]|].
    left. by apply tc_once.
  - destruct (decide (x = s)) as [->|Hne]; [right; split; [done|by eapply tc_l]|].
    destruct IH as [Hoff|[Hzs Hsy]].
    + left. eapply tc_l; [split|]; done.
    + right. split; [by eapply rtc_l|done].
Qed.

Section write.
Context (r : Registry) (t : Task).
Lemma edge_written b : edge (<[ID t := t]> r) (ID t) b ↔ b ∈ Deps t.
Proof.
  unfold edge. rewrite lookup_insert_eq. split.
  - by intros (? & [= <-] & ?).
  - intros ?. by exists t.
Qed.

Lemma edge_unwritten a b : a ≠ ID t → edge (<[ID t := t]> r) a b ↔ edge r a b.
Proof. intros Hne. unfold edge. by rewrite lookup_insert_ne. Qed.

Lemma cycle_through_written :
  tc (edge (<[ID t := t]> r)) (ID t) (ID t) ↔ ∃ d, d ∈ Deps t ∧ rtc (edge (<[ID t := t]> r)) d (ID t).
Proof.
  split.
  - intros Hcycle. inversion Hcycle as [?? Hstep|? d ? Hstep Hrest]; subst.
    + exists (ID t). split; [by apply edge_written|done].
    + exists d. split; [by apply edge_written|by apply tc_rtc].
  - intros (d & Hd & Hpath). eapply tc_rtc_r; [|done].
    apply tc_once. by apply edge_written.
Qed.

(** With one unit of fuel per stored task the walk of [Update] returns,
    and it reports a cycle exactly when writing [t] closes one through
    [ID t]. *)
Lemma walk_decides :
  ∃ w, checkCircularLocked (size r) r (ID t) (Deps t) ∅ = Some w
       ∧ (w = Cycle ↔ tc (edge (<[ID t := t]> r)) (ID t) (ID t)).
Proof.
  destruct (checkCircularLocked_returns r (ID t) (size r) (Deps t) ∅)
    as (w & Hw & _).
  { rewrite difference_empty_L. by rewrite size_dom. }
  exists w. split; [done|]. destruct w as [|visited].
  - split; [intros _|done].
    apply checkCircularLocked_cycle in Hw as (d & Hd & Hpath).
    apply cycle_through_written. exists d. split; [done|].
    eapply rtc_subrel; [|done]. intros a b [Hne Hab]. by apply edge_unwritten.
  - split; [done|]. intros (d & Hd & Hpath)%cycle_through_written. exfalso.
    apply checkCircularLocked_clear in Hw as (_ & Hdeps & Hclosed).
    assert (Hinv : ∀ x y, rtc (edge (<[ID t := t]> r)) x y → x ∈ visited → y ∈ visited).
    { induction 1 as [|x z y Hstep _ IH]; [done|]. intros Hx. apply IH.
      destruct (Hclosed x Hx ltac:(set_solver)) as [Hne Hsucc].
      apply Hsucc. by apply edge_unwritten. }
    specialize (Hinv d (ID t) Hpath (proj1 (Hdeps d Hd))).
    by destruct (Hclosed (ID t) Hinv ltac:(set_solver)).
Qed.

Lemma validateDeps_loop_None deps :
  validateDeps_loop r deps = None ↔ ∀ d, d ∈ deps → is_Some (r !! d).
Proof.
  induction deps as [|d rest IH]; simpl.
  - split; [intros _ ? H; by apply elem_of_nil in H | done].
  - destruct (r !! d) eqn:Hd.
    + rewrite IH. split.
      * intros H x [->|Hx]%elem_of_cons; [by rewrite Hd | by apply H].
      * intros H x Hx. apply H. by right.
    + split; [done|]. intros H. destruct (H d) as [? Hsome]; [left|]. congruence.
Qed.

Lemma validateDeps_loop_error deps err :
  validateDeps_loop r deps = Some err → ∃ d, err = UnknownDependency d.
Proof.
  induction deps as [|d rest IH]; simpl; [done|].
  destruct (r !! d); [done|]. intros [= <-]. by eexists.
Qed.
End write.

Lemma find_dependent_None (r : Registry) id :
  find_dependent (map_to_list r) id = None ↔ ∀ k t, r !! k = Some t → id ∉ Deps t.
Proof.
  assert (Hdep : ∀ deps, has_dep deps id = true ↔ id ∈ deps).
  { induction deps as [|d rest IH]; simpl.
    - split; [done | intros H; by apply elem_of_nil in H].
    - case_bool_decide as Hd.
      + subst. split; [intros _; left | done].
      + rewrite IH. rewrite elem_of_cons. split; [auto | intros [->|]; done]. }
  assert (Hloop : ∀ entries, find_dependent entries id = None
            ↔ ∀ k t, (k, t) ∈ entries → id ∉ Deps t).
  { induction entries as [|[k' t'] rest IH]; simpl.
    - split; [intros _ ?? H; by apply elem_of_nil in H | done].
    - destruct (has_dep (Deps t') id) eqn:E.
      + split; [done|]. intros H. apply Hdep in E. by destruct (H k' t' ltac:(left)).
      + rewrite IH. split.
        * intros H k t [[= -> ->]|Hin]%elem_of_cons; [|by eapply H].
          intros Hin. apply Hdep in Hin. congruence.
        * intros H k t Hin. eapply H. by right. }
  rewrite Hloop. split; intros H k t Hk; apply (H k t); by apply elem_of_map_to_list.
Qed.

(** The walk of [Update] never runs out of fuel. *)
Lemma Update_walk_total (r : Registry) (t : Task) :
  snd (Update r t) ≠ Some WalkOutOfFuel.
Proof.
  unfold Update. destruct (Validate t); [done|]. destruct (r !! ID t); [|done].
  destruct (validateDepsLocked r t) as [err|] eqn:Hdeps.
  - apply validateDeps_loop_error in Hdeps as [d ->]. done.
  - destruct (walk_decides r t) as ([|v] & -> & _); done.
Qed.

Lemma Update_checked (r : Registry) (t : Task) :
  Validate t = None → is_Some (r !! ID t) → validateDepsLocked r t = None →
  Update r t =
    match checkCircularLocked (size r) r (ID t) (Deps t) ∅ with
    | Some Cycle => (r, Some (CircularDependency (ID t)))
    | Some (Clear _) => (<[ID t := t]> r, None)
    | None => (r, Some WalkOutOfFuel)
    end.
Proof. intros Hv [old Hold] Hd. unfold Update. by rewrite Hv, Hold, Hd. Qed.


(** ** The invariant of the graph *)

Lemma Add_ok (r : Registry) (t : Task) :
  snd (Add r t) = None →
  fst (Add r t) = <[ID t := t]> r ∧ r !! ID t = None
  ∧ ∀ d, d ∈ Deps t → is_Some (r !! d).
Proof.
  unfold Add. destruct (Validate t); [done|].
  destruct (r !! ID t) eqn:Hid; [done|].
  destruct (validateDepsLocked r t) eqn:Hdeps; [done|]. intros _.
  split; [done|]. split; [done|]. by apply validateDeps_loop_None.
Qed.

Lemma Update_ok (r : Registry) (t : Task) :
  snd (Update r t) = None →
  fst (Update r t) = <[ID t := t]> r ∧ is_Some (r !! ID t)
  ∧ (∀ d, d ∈ Deps t → is_Some (r !! d))
  ∧ ¬ tc (edge (<[ID t := t]> r)) (ID t) (ID t).
Proof.
  unfold Update. destruct (Validate t); [done|].
  destruct (r !! ID t) eqn:Hid; [|done].
  destruct (validateDepsLocked r t) eqn:Hdeps; [done|].
  destruct (walk_decides r t) as (w & -> & Hw). destruct w; [done|]. intros _.
  split; [done|]. split; [done|]. split; [by apply validateDeps_loop_None|].
  intros H. by apply Hw in H.
Qed.

Lemma Delete_ok (r : Registry) (id : string) :
  snd (Delete r id) = None →
  fst (Delete r id) = delete id r ∧ ∀ k t, r !! k = Some t → id ∉ Deps t.
Proof.
  unfold Delete. destruct (r !! id); [|done].
  destruct (find_dependent (map_to_list r) id) eqn:Hfind; [done|]. intros _.
  split; [done|]. by apply find_dependent_None.
Qed.

Lemma resolved_write (r : Registry) (t : Task) :
  resolved r → (∀ d, d ∈ Deps t → is_Some (r !! d)) → resolved (<[ID t := t]> r).
Proof.
  intros Hres Hdeps id t' d Hid Hd. apply lookup_insert_is_Some'. right.
  apply lookup_insert_Some in Hid as [[_ <-]|[_ Hid]]; [by apply Hdeps|].
  by eapply Hres.
Qed.

Lemma acyclic_Add (r : Registry) (t : Task) :
  graph_invariant r → r !! ID t = None → (∀ d, d ∈ Deps t → is_Some (r !! d)) →
  acyclic (<[ID t := t]> r).
Proof.
  intros [Hacyc Hres] Hfresh Hdeps.
  assert (Hinto : ∀ a, ¬ edge (<[ID t := t]> r) a (ID t)).
  { intros a (ta & Ha & Hin).
    assert (is_Some (r !! ID t)) as [? Hsome]; [|congruence].
    apply lookup_insert_Some in Ha as [[_ <-]|[_ Ha]]; [by apply Hdeps|].
    by eapply Hres. }
  assert (Hpath : ∀ a b, tc (edge (<[ID t := t]> r)) a b → a ≠ ID t → tc (edge r) a b).
  { induction 1 as [a b Hstep|a c b Hstep Hrest IH]; intros Hne.
    - apply tc_once. by apply (edge_unwritten r t).
    - eapply tc_l; [by apply (edge_unwritten r t)|]. apply IH.
      intros ->. by eapply Hinto. }
  intros a Hcycle. destruct (decide (a = ID t)) as [->|Hne].
  - apply tc_last_step in Hcycle as [z Hstep]. by apply Hinto in Hstep.
  - apply (Hacyc a). by apply Hpath.
Qed.

Lemma acyclic_Update (r : Registry) (t : Task) :
  acyclic r → ¬ tc (edge (<[ID t := t]> r)) (ID t) (ID t) →
  acyclic (<[ID t := t]> r).
Proof.
  intros Hacyc Hno a Hcycle.
  apply (tc_split_at _ (ID t)) in Hcycle as [Hoff|[Hto Hfrom]].
  - apply (Hacyc a). eapply tc_subrel; [|done].
    intros x y [Hne Hxy]. by apply (edge_unwritten r t).
  - apply Hno. by eapply tc_rtc_r.
Qed.

Lemma graph_invariant_Delete (r : Registry) (id : string) :
  (∀ k t, r !! k = Some t → id ∉ Deps t) →
  (resolved r → resolved (delete id r)) ∧ (acyclic r → acyclic (delete id r)).
Proof.
  intros Hnodep. split.
  - intros Hres k t d [Hne Hk]%lookup_delete_Some Hd.
    apply lookup_delete_is_Some. split; [|by eapply Hres].
    intros <-. by eapply Hnodep.
  - intros Hacyc a Hcycle. apply (Hacyc a). eapply tc_subrel; [|done].
    intros x y (tx & [_ Hx]%lookup_delete_Some & Hy). by exists tx.
Qed.

Lemma Load_check_None (r : Registry) entries :
  Load_check r entries = None →
  ∀ k t, (k, t) ∈ entries → validateDepsLocked r t = None.
Proof.
  induction entries as [|[k' t'] rest IH]; simpl.
  - intros _ ?? H. by apply elem_of_nil in H.
  - destruct (validateDepsLocked r t') eqn:E; [done|].
    intros Hrest k t [[= -> ->]|Hin]%elem_of_cons; [done|]. by eapply IH.
Qed.

Lemma Load_ok (r : Registry) (f : file) :
  snd (Load r f) = None → resolved (fst (Load r f)).
Proof.
  unfold Load. destruct f as [| |tasks]; [done|done|].
  destruct (Load_install tasks ∅) as [r' [err|]]; [done|]. simpl.
  intros Hcheck k t d Hk Hd.
  eapply Load_check_None in Hcheck; [|by apply elem_of_map_to_list].
  by eapply validateDeps_loop_None in Hcheck.
Qed.

(** One successful [Add], [Update] or [Delete] keeps the graph acyclic and
    free of dangling dependencies. *)
Lemma graph_invariant_step (r : Registry) (o : op) :
  is_Load o = false → graph_invariant r → snd (apply_op r o) = None →
  graph_invariant (fst (apply_op r o)).
Proof.
  intros Hnoload [Hacyc Hres] Hok. destruct o as [t|t|id|f]; simpl in *; [| | |done].
  - apply Add_ok in Hok as (-> & Hfresh & Hdeps). split.
    + by apply acyclic_Add.
    + by apply resolved_write.
  - apply Update_ok in Hok as (-> & _ & Hdeps & Hno). split.
    + by apply acyclic_Update.
    + by apply resolved_write.
  - apply Delete_ok in Hok as (-> & Hnodep).
    destruct (graph_invariant_Delete r id Hnodep). split; auto.
Qed.

Lemma resolved_step (r : Registry) (o : op) :
  resolved r → snd (apply_op r o) = None → resolved (fst (apply_op r o)).
Proof.
  intros Hres Hok. destruct o as [t|t|id|f]; simpl in *.
  - apply Add_ok in Hok as (-> & _ & Hdeps). by apply resolved_write.
  - apply Update_ok in Hok as (-> & _ & Hdeps & _). by apply resolved_write.
  - apply Delete_ok in Hok as (-> & Hnodep).
    by apply (graph_invariant_Delete r id Hnodep).
  - by apply Load_ok.
Qed.



(** ** Quota signals *)




Lemma ToLower_app (a b : string) : ToLower (a +:+ b) = ToLower a +:+ ToLower b.
Proof. induction a as [|x a IH]; simpl; [done|]. by rewrite IH. Qed.






(** ** Failover *)

Lemma requests_of_RecordError now tr b d x :
  requests_of (RecordError now tr b d) x = requests_of tr x.
Proof.
  unfold requests_of, RecordError, usage_of. simpl.
  destruct (decide (b = x)) as [->|Hne].
  - rewrite lookup_insert_eq. simpl. by destruct (usage tr !! x).
  - by rewrite lookup_insert_ne.
Qed.

Lemma requests_of_Record now tr b n x :
  requests_of (Record_ now tr b n) x =
    if bool_decide (x = b) then requests_of tr x + 1 else requests_of tr x.
Proof.
  unfold requests_of, Record_, usage_of. simpl. case_bool_decide as Hx.
  - subst. rewrite lookup_insert_eq. simpl. by destruct (usage tr !! b).
  - by rewrite lookup_insert_ne.
Qed.

Lemma IsExhausted_RecordError now tr b :
  IsExhausted now (RecordError now tr b Hour) b = true.
Proof.
  unfold IsExhausted, RecordError. simpl. rewrite lookup_insert_eq. simpl.
  apply Z.ltb_lt. unfold Hour. lia.
Qed.

(** A call that ends in an error records no usage. *)
Lemma runBackend_error w t b m tr tr' result err :
  runBackend w t b m tr = (tr', (result, Some err)) →
  ∀ x, requests_of tr' x = requests_of tr x.
Proof.
  unfold runBackend. destruct (IsExhausted (now w) tr b); [by intros [= <- _ _]|].
  assert (Hblocked : ∀ e x,
    requests_of (if isQuotaError (Some e) then RecordError (now w) tr b Hour else tr) x
    = requests_of tr x).
  { intros e x. destruct (isQuotaError (Some e)); [apply requests_of_RecordError|done]. }
  repeat case_bool_decide; repeat case_match; intros [= <- _ _]; try done;
    intros x; first [apply Hblocked | apply requests_of_RecordError].
Qed.

(** A call that ends in a successful result was let through by the tracker
    and records one request against the backend that served it. *)
Lemma runBackend_success w t b m tr tr' result :
  runBackend w t b m tr = (tr', (Some result, None)) → Success result = true →
  IsExhausted (now w) tr b = false
  ∧ ∀ x, requests_of tr' x =
           if bool_decide (x = b) then requests_of tr x + 1 else requests_of tr x.
Proof.
  unfold runBackend. destruct (IsExhausted (now w) tr b); [done|].
  intros Hrun Hok. split; [done|]. revert Hrun. cbv zeta.
  match goal with
  | |- context [match ?backend with inl _ => _ | inr _ => _ end] =>
      destruct backend as [failure|backendModel]
  end; [done|].
  destruct (behave w b backendModel) as [| | |served]; try done.
  intros [= <- <-]. rewrite Hok. intros x. apply requests_of_Record.
Qed.

Lemma Split_two_nonempty s a b : Split s slash = [a; b] → s ≠ ""%string.
Proof. by intros H ->. Qed.

(** C5. When the call to the primary backend ends in an error that is a
    quota signal and the task's fallback splits at "/" into a backend and a
    model, [runWithFailover] blocks the primary backend in the tracker for
    an hour and returns what one call to the fallback backend returns; when
    that call succeeds, one request is recorded against the fallback
    backend, which is then another backend than the primary, and none
    against the primary. *)
Theorem runWithFailover_fallback (w : World) (t : Task) (backendName model : string)
    (tracker tracker1 : Tracker) (result : option Result)
    (err fallbackBackend fallbackModel : string) :
  runBackend w t backendName model tracker = (tracker1, (result, Some err)) →
  isQuotaError (Some err) = true →
  Split (Fallback t) slash = [fallbackBackend; fallbackModel] →
  runWithFailover w t backendName model tracker
    = runBackend w t fallbackBackend fallbackModel
        (RecordError (now w) tracker1 backendName Hour)
  ∧ IsExhausted (now w) (RecordError (now w) tracker1 backendName Hour) backendName = true
  ∧ ∀ tracker3 served,
      runWithFailover w t backendName model tracker = (tracker3, (Some served, None)) →
      Success served = true →
      fallbackBackend ≠ backendName
      ∧ requests_of tracker3 fallbackBackend = requests_of tracker fallbackBackend + 1
      ∧ requests_of tracker3 backendName = requests_of tracker backendName.
Proof.
  intros Hprimary Hquota Hsplit.
  assert (Hrun : runWithFailover w t backendName model tracker
    = runBackend w t fallbackBackend fallbackModel
        (RecordError (now w) tracker1 backendName Hour)).
  { unfold runWithFailover. rewrite Hprimary, Hquota, Hsplit.
    rewrite !bool_decide_eq_true_2; [done| |done].
    by eapply Split_two_nonempty. }
  split; [done|]. split; [apply IsExhausted_RecordError|].
  intros tracker3 served Hserved Hok. rewrite Hrun in Hserved.
  apply runBackend_success in Hserved as [Hfree Hcount]; [|done].
  assert (Hne : fallbackBackend ≠ backendName).
  { intros ->. by rewrite IsExhausted_RecordError in Hfree. }
  split; [done|].
  pose proof (runBackend_error _ _ _ _ _ _ _ _ Hprimary) as Hsame.
  rewrite !Hcount, !requests_of_RecordError, !Hsame.
  rewrite bool_decide_eq_true_2 by done. by rewrite bool_decide_eq_false_2.
Qed.

Example isQuotaError_cases :
  isQuotaError (Some "HTTP 429") = true
  ∧ isQuotaError (Some "Rate Limit exceeded") = true
  ∧ isQuotaError (Some "quota exhausted for backend claude") = true
  ∧ isQuotaError (Some "Too Many Requests") = true
  ∧ isQuotaError (Some "connection refused") = false
  ∧ isQuotaError None = false.
Proof. by vm_compute. Qed.

Example Split_cases :
  Split "claude/sonnet" slash = ["claude"; "sonnet"]%string
  ∧ Split "copilot" slash = ["copilot"]%string
  ∧ Split "a/b/c" slash = ["a"; "b"; "c"]%string
  ∧ Split "" slash = [""]%string.
Proof. by vm_compute. Qed.

(** ** The [work] command on a failing backend *)

(** C7. On a ready task, [RunE] returns the backend's error and leaves the
    task in_progress, in memory and on disk, in each of the three cases: the
    call fails with an error that is no quota signal; it fails with a quota
    signal and the task has no fallback; the fallback fails with a quota
    signal as well. *)
Theorem RunE_error_leaves_in_progress :
  (let out := RunE (failing "connection refused") ws0 "ua-001" "" None no_usage in
   out.2 = Some "agent failed: connection refused"%string
   ∧ status_after out "ua-001" = (Some StatusInProgress, Some StatusInProgress))
  ∧ (let out := RunE (failing "429 Too Many Requests") ws0 "ua-001" "" None no_usage in
     out.2 = Some "agent failed: 429 Too Many Requests"%string
     ∧ status_after out "ua-001" = (Some StatusInProgress, Some StatusInProgress))
  ∧ (let out := RunE (failing "rate limit exceeded") ws0 "ua-001" ""
                  (Some ("claude/opus", "copilot/gpt-4"))%string no_usage in
     out.2 = Some "agent failed: rate limit exceeded"%string
     ∧ status_after out "ua-001" = (Some StatusInProgress, Some StatusInProgress)).
Proof. by vm_compute. Qed.

(** The sibling path: a result that reports failure does move the task to
    failed, and the command returns no error. *)
Example RunE_failed_result :
  let w := {| now := 100; ClaudeModel := "sonnet"; CopilotModel := "gpt-4";
              generateMCPConfig := None;
              behave := λ _ _, RunReturns {| Success := false; Output := "";
                                             ResultError := "tests failed" |} |} in
  let out := RunE w ws0 "ua-001" "" None no_usage in
  out.2 = None ∧ status_after out "ua-001" = (Some StatusFailed, Some StatusFailed).
Proof. by vm_compute. Qed.

(** ** The scenarios of the tests, and instances of the theorems above *)

Example abc_stored : abc = {["ua-A" := tA; "ua-B" := tB; "ua-C" := tC]}.
Proof. by vm_compute. Qed.

Example Update_closing_cycle_fails :
  Update abc (with_deps tA ["ua-C"]) = (abc, Some (CircularDependency "ua-A")).
Proof. by vm_compute. Qed.

Example GetReady_scenario :
  elems (GetReady {["ua-001" := oauth;
                    "ua-002" := with_deps (New 0 "ua-002" "Has dep") ["ua-001"]]})
    = [oauth]
  ∧ elems (GetReady {["ua-001" := with_status oauth StatusComplete 1;
                      "ua-002" := with_deps (New 0 "ua-002" "Has dep") ["ua-001"]]})
    = [with_deps (New 0 "ua-002" "Has dep") ["ua-001"]].
Proof. by vm_compute. Qed.


Lemma failed_write_keeps_registry_witness :
  fst (Add abc tA) = abc ∧ fst (Update abc (with_deps tA ["ua-C"])) = abc.
Proof.
  destruct (failed_write_keeps_registry abc tA) as [HAdd _].
  destruct (failed_write_keeps_registry abc (with_deps tA ["ua-C"])) as [_ HUpdate].
  split; [apply HAdd | apply HUpdate]; vm_compute; discriminate.
Defined.



Lemma runWithFailover_fallback_witness :
  runWithFailover claude_limited oauth_routed "claude" "opus" no_usage
    = runBackend claude_limited oauth_routed "copilot" "gpt-4"
        (RecordError 100 (RecordError 100 no_usage "claude" Hour) "claude" Hour)
  ∧ requests_of (fst (runWithFailover claude_limited oauth_routed "claude" "opus" no_usage))
      "copilot" = 1
  ∧ requests_of (fst (runWithFailover claude_limited oauth_routed "claude" "opus" no_usage))
      "claude" = 0.
Proof.
  destruct (runWithFailover_fallback claude_limited oauth_routed "claude" "opus"
              no_usage (RecordError 100 no_usage "claude" Hour) None
              "429 Too Many Requests" "copilot" "gpt-4")
    as (Hrun & _ & Hcount).
  - vm_compute. reflexivity.
  - vm_compute. reflexivity.
  - vm_compute. reflexivity.
  - split; [exact Hrun|].
    destruct (Hcount
                (fst (runWithFailover claude_limited oauth_routed "claude" "opus" no_usage))
                {| Success := true; Output := "done"; ResultError := "" |})
      as (_ & Hfallback & Hprimary).
    + vm_compute. reflexivity.
    + reflexivity.
    + split; [exact Hfallback | exact Hprimary].
Defined.


(** * Further properties of the registry *)

(** ** Well-formedness is kept by every successful write *)

Lemma Add_valid (r : Registry) (t : Task) : snd (Add r t) = None → Validate t = None.
Proof. unfold Add. by destruct (Validate t). Qed.

Lemma Update_valid (r : Registry) (t : Task) : snd (Update r t) = None → Validate t = None.
Proof. unfold Update. by destruct (Validate t). Qed.

Lemma keyed_valid_write (r : Registry) (t : Task) :
  Validate t = None → keyed r ∧ all_valid r →
  keyed (<[ID t := t]> r) ∧ all_valid (<[ID t := t]> r).
Proof.
  intros Hv [Hk Ha]. split; intros k t' [[<- <-]|[_ Hin]]%lookup_insert_Some; eauto.
Qed.

Lemma Load_install_keyed_valid tasks (acc : Registry) :
  keyed acc ∧ all_valid acc → snd (Load_install tasks acc) = None →
  keyed (fst (Load_install tasks acc)) ∧ all_valid (fst (Load_install tasks acc)).
Proof.
  revert acc. induction tasks as [|t rest IH]; intros acc Hacc; simpl; [done|].
  destruct (Validate t) eqn:Hv; [done|]. apply IH. by apply keyed_valid_write.
Qed.

Lemma keyed_valid_step (r : Registry) (o : op) :
  keyed r ∧ all_valid r → snd (apply_op r o) = None →
  keyed (fst (apply_op r o)) ∧ all_valid (fst (apply_op r o)).
Proof.
  intros Hr Hok. destruct o as [t|t|id|f]; simpl in *.
  - pose proof (Add_valid _ _ Hok). apply Add_ok in Hok as (-> & _).
    by apply keyed_valid_write.
  - pose proof (Update_valid _ _ Hok). apply Update_ok in Hok as (-> & _).
    by apply keyed_valid_write.
  - apply Delete_ok in Hok as (-> & _). destruct Hr as [Hk Ha].
    split; intros k t [_ Hin]%lookup_delete_Some; eauto.
  - unfold Load in *. destruct f as [| |tasks]; [done|done|].
    pose proof (Load_install_keyed_valid tasks ∅) as Hinst.
    destruct (Load_install tasks ∅) as [r' [err|]]; [done|]. simpl in *.
    apply Hinst; [|done]. split; intros k t Hin; by rewrite lookup_empty in Hin.
Qed.

(** What every registry reached by successful writes satisfies. *)
Lemma reaches_wellformed (loads : bool) (r : Registry) :
  reaches loads r →
  keyed r ∧ all_valid r ∧ resolved r ∧ (loads = false → acyclic r).
Proof.
  induction 1 as [|r o Hreach (Hk & Hv & Hres & Hacyc) Hload Hok].
  - unfold NewRegistry. repeat split.
    + intros k t Hin. by rewrite lookup_empty in Hin.
    + intros k t Hin. by rewrite lookup_empty in Hin.
    + intros k t d Hin. by rewrite lookup_empty in Hin.
    + intros _ a (z & t & Hz & _)%tc_last_step. by rewrite lookup_empty in Hz.
  - destruct (keyed_valid_step r o (conj Hk Hv) Hok) as [Hk' Hv'].
    split; [done|]. split; [done|]. split; [by apply resolved_step|].
    intros ->. apply graph_invariant_step; [|by split; auto|done].
    destruct (is_Load o); [by specialize (Hload eq_refl)|done].
Qed.

(** ** [Add] and [Delete] *)

Lemma validateDeps_loop_names (r : Registry) deps d :
  validateDeps_loop r deps = Some (UnknownDependency d) → d ∈ deps ∧ r !! d = None.
Proof.
  induction deps as [|x rest IH]; simpl; [done|].
  destruct (r !! x) eqn:Hx.
  - intros [? ?]%IH. split; [by right|done].
  - intros [= <-]. split; [left|done].
Qed.

(** X1. [Add] succeeds exactly when the task is valid, its ID is not a key
    and every dependency is a key; the registry then maps the ID to the
    task and every other key as before. An invalid task is rejected before
    the registry is looked at, a duplicate before the dependencies are, and
    an [UnknownDependency] names a dependency of the task that is missing. *)
Theorem Add_outcome (r : Registry) (t : Task) :
  (snd (Add r t) = None
   ↔ Validate t = None ∧ r !! ID t = None ∧ ∀ d, d ∈ Deps t → is_Some (r !! d))
  ∧ (snd (Add r t) = None →
       ∀ k, fst (Add r t) !! k = if decide (k = ID t) then Some t else r !! k)
  ∧ (∀ cause, Validate t = Some cause → snd (Add r t) = Some (ValidationError cause))
  ∧ (Validate t = None → is_Some (r !! ID t) → snd (Add r t) = Some (DuplicateID (ID t)))
  ∧ (∀ d, snd (Add r t) = Some (UnknownDependency d) → d ∈ Deps t ∧ r !! d = None).
Proof.
  split_and!.
  - split.
    + intros Hok. pose proof (Add_valid _ _ Hok). by apply Add_ok in Hok as (_ & ? & ?).
    + intros (Hv & Hid & Hdeps). unfold Add, validateDepsLocked. rewrite Hv, Hid.
      apply validateDeps_loop_None in Hdeps. by rewrite Hdeps.
  - intros Hok k. apply Add_ok in Hok as (-> & _).
    destruct (decide (k = ID t)) as [->|Hne].
    + by rewrite lookup_insert_eq.
    + by rewrite lookup_insert_ne.
  - intros cause Hv. unfold Add. by rewrite Hv.
  - intros Hv [old Hold]. unfold Add. by rewrite Hv, Hold.
  - intros d. unfold Add, validateDepsLocked. destruct (Validate t); [done|].
    destruct (r !! ID t); [done|].
    destruct (validateDeps_loop r (Deps t)) eqn:Hdeps; [|done].
    intros [= ->]. by apply validateDeps_loop_names in Hdeps.
Qed.

Lemma find_dependent_Some (r : Registry) id t :
  find_dependent (map_to_list r) id = Some t → stored r t ∧ id ∈ Deps t.
Proof.
  assert (Hdep : ∀ deps, has_dep deps id = true → id ∈ deps).
  { induction deps as [|d rest IH]; simpl; [done|].
    case_bool_decide as Hd; [subst; intros _; left | intros ?; right; auto]. }
  assert (Hloop : ∀ entries, find_dependent entries id = Some t →
            ∃ k, (k, t) ∈ entries ∧ id ∈ Deps t).
  { induction entries as [|[k' t'] rest IH]; simpl; [done|].
    destruct (has_dep (Deps t') id) eqn:E.
    - intros [= ->]. exists k'. split; [left | by apply Hdep].
    - intros (k & Hin & ?)%IH. exists k. split; [by right | done]. }
  intros (k & Hin & ?)%Hloop. split; [|done]. exists k. by apply elem_of_map_to_list.
Qed.

(** X2. [Delete] succeeds exactly when the ID is a key and no stored task
    lists it among its dependencies; it then removes that key and no other.
    When it fails the registry is unchanged, and a [HasDependents] error
    names the ID of a stored task that does list the deleted ID. *)
Theorem Delete_outcome (r : Registry) (id : string) :
  (snd (Delete r id) = None
   ↔ is_Some (r !! id) ∧ ∀ k t, r !! k = Some t → id ∉ Deps t)
  ∧ (snd (Delete r id) = None →
       ∀ k, fst (Delete r id) !! k = if decide (k = id) then None else r !! k)
  ∧ (snd (Delete r id) ≠ None → fst (Delete r id) = r)
  ∧ (r !! id = None → snd (Delete r id) = Some (NotFound id))
  ∧ (∀ dependent, snd (Delete r id) = Some (HasDependents id dependent) →
       ∃ t, stored r t ∧ ID t = dependent ∧ id ∈ Deps t).
Proof.
  split_and!.
  - split.
    + intros Hok. split; [|by apply Delete_ok in Hok as [_ ?]].
      unfold Delete in Hok. by destruct (r !! id).
    + intros [[old Hold] Hno]. unfold Delete. rewrite Hold.
      apply find_dependent_None in Hno. by rewrite Hno.
  - intros Hok k. apply Delete_ok in Hok as (-> & _).
    destruct (decide (k = id)) as [->|Hne].
    + by rewrite lookup_delete_eq.
    + by rewrite lookup_delete_ne.
  - unfold Delete. destruct (r !! id); [|done].
    by destruct (find_dependent (map_to_list r) id).
  - intros Hid. unfold Delete. by rewrite Hid.
  - intros dependent. unfold Delete. destruct (r !! id) as [old|]; [|done].
    destruct (find_dependent (map_to_list r) id) as [t|] eqn:Hfind; [|done].
    intros [= <-]. apply find_dependent_Some in Hfind as [? ?]. by exists t.
Qed.
(** ** Dependencies in both directions *)

Lemma has_dep_spec deps id : has_dep deps id = true ↔ id ∈ deps.
Proof.
  induction deps as [|d rest IH]; simpl.
  - split; [done | intros H; by apply elem_of_nil in H].
  - case_bool_decide as Hd.
    + subst. split; [intros _; left | done].
    + rewrite IH, elem_of_cons. split; [auto | intros [->|]; done].
Qed.

Lemma elem_of_GetDependents (r : Registry) id t :
  t ∈ elems (fst (GetDependents r id)) ↔ is_Some (r !! id) ∧ stored r t ∧ id ∈ Deps t.
Proof.
  unfold GetDependents. destruct (r !! id) as [old|] eqn:Hid; simpl.
  - rewrite elem_of_collect_registry, has_dep_spec. split; [by intros [? ?] | by intros (_ & ? & ?)].
  - split; [intros H; by apply elem_of_nil in H | by intros [[? ?] _]].
Qed.

Lemma eq_nil_not_elem {A} (l : list A) : l = [] ↔ ∀ x, x ∉ l.
Proof.
  split; [intros -> x H; by apply elem_of_nil in H|].
  destruct l as [|x l]; [done|]. intros H. destruct (H x). left.
Qed.

(** X3. [Delete(id)] succeeds exactly when [GetDependents(id)] succeeds and
    returns no task. *)
Theorem Delete_iff_no_dependents (r : Registry) (id : string) :
  snd (Delete r id) = None
  ↔ snd (GetDependents r id) = None ∧ elems (fst (GetDependents r id)) = [].
Proof.
  rewrite eq_nil_not_elem. setoid_rewrite elem_of_GetDependents. split.
  - intros Hok. pose proof (Delete_ok _ _ Hok) as [_ Hno].
    assert (is_Some (r !! id)) as [old Hold].
    { unfold Delete in Hok. by destruct (r !! id). }
    split; [unfold GetDependents; by rewrite Hold|].
    intros t (_ & [k Hk] & Hin). by eapply Hno.
  - intros [Hsome Hno]. unfold GetDependents in Hsome. unfold Delete.
    destruct (r !! id) as [old|] eqn:Hold; [|done].
    assert (find_dependent (map_to_list r) id = None) as ->; [|done].
    apply find_dependent_None. intros k t Hk Hin. apply (Hno t).
    split; [by eexists|]. split; [by exists k|done].
Qed.

Lemma elems_append {A} (s : slice A) x : elems (append s x) = elems s ++ [x].
Proof. by destruct s. Qed.

Lemma elems_GetDeps_loop (r : Registry) deps acc :
  elems (GetDeps_loop r deps acc) = elems acc ++ omap (r !!.) deps.
Proof.
  revert acc. induction deps as [|d rest IH]; intros acc; simpl.
  - by rewrite app_nil_r.
  - rewrite IH. destruct (r !! d); [|done]. by rewrite elems_append, <- app_assoc.
Qed.

Lemma elems_GetDeps (r : Registry) id t :
  r !! id = Some t → GetDeps r id = (GetDeps_loop r (Deps t) (mk_slice []), None)
  ∧ elems (fst (GetDeps r id)) = omap (r !!.) (Deps t).
Proof.
  intros Hid. unfold GetDeps, make_empty. rewrite Hid. split; [done|].
  simpl. by rewrite elems_GetDeps_loop.
Qed.

(** X4. In a registry reached by successful writes, [GetDeps(id)] of a
    stored task returns one stored task for each of its dependencies, in
    their order: the IDs of the tasks returned are the task's [Deps]. *)
Theorem GetDeps_reached (loads : bool) (r : Registry) (id : string) (t : Task) :
  reaches loads r → r !! id = Some t →
  snd (GetDeps r id) = None
  ∧ ID <$> elems (fst (GetDeps r id)) = Deps t
  ∧ ∀ dep, dep ∈ elems (fst (GetDeps r id)) → stored r dep.
Proof.
  intros (Hkeyed & _ & Hres & _)%reaches_wellformed Hid.
  destruct (elems_GetDeps r id t Hid) as [Hrun ->]. rewrite Hrun.
  split; [done|]. split.
  - assert (Hall : ∀ d, d ∈ Deps t → is_Some (r !! d)) by (intros d; by apply (Hres id t)).
    clear Hid Hrun. induction (Deps t) as [|d rest IH]; simpl; [done|].
    destruct (Hall d ltac:(left)) as [dep Hdep]. rewrite Hdep. csimpl.
    f_equal; [by apply Hkeyed|]. apply IH. intros x Hx. apply Hall. by right.
  - intros dep (d & _ & Hd)%list_elem_of_omap. by exists d.
Qed.

(** X5. In a registry reached by successful writes the two directions
    agree: for stored tasks under [a] and [b], [GetDeps(a)] returns the
    task of [b] exactly when [GetDependents(b)] returns the task of [a]. *)
Theorem GetDeps_GetDependents (loads : bool) (r : Registry) (a b : string) (ta tb : Task) :
  reaches loads r → r !! a = Some ta → r !! b = Some tb →
  tb ∈ elems (fst (GetDeps r a)) ↔ ta ∈ elems (fst (GetDependents r b)).
Proof.
  intros (Hkeyed & _ & _ & _)%reaches_wellformed Ha Hb.
  destruct (elems_GetDeps r a ta Ha) as [_ ->].
  rewrite elem_of_GetDependents, list_elem_of_omap. split.
  - intros (d & Hd & Hlook). split; [by rewrite Hb|]. split; [by exists a|].
    apply Hkeyed in Hlook as Hkey. apply Hkeyed in Hb. congruence.
  - intros (_ & _ & Hin). by exists b.
Qed.

(** ** [Save] and [Load] *)

Lemma elems_collect keep entries acc :
  elems (collect keep entries acc) = elems acc ++ List.filter keep (entries.*2).
Proof.
  revert acc. induction entries as [|[k t] rest IH]; intros acc; simpl.
  - by rewrite app_nil_r.
  - rewrite IH. destruct (keep t); [|done]. by rewrite elems_append, <- app_assoc.
Qed.

Lemma filter_true {A} (l : list A) : List.filter (λ _, true) l = l.
Proof. induction l as [|x l IH]; simpl; [done|]. by rewrite IH. Qed.

Lemma elems_Save_data (r : Registry) : elems (Save_data r) = (map_to_list r).*2.
Proof. unfold Save_data, make_empty. rewrite elems_collect. simpl. apply filter_true. Qed.

Lemma elem_of_with_ID k tasks t : t ∈ with_ID k tasks ↔ t ∈ tasks ∧ ID t = k.
Proof.
  unfold with_ID. rewrite !list_elem_of_In, filter_In, bool_decide_eq_true. done.
Qed.

Lemma Load_install_lookup tasks (acc : Registry) k :
  fst (Load_install tasks acc) !! k
  = match last (with_ID k (valid_prefix tasks)) with
    | Some t => Some t
    | None => acc !! k
    end.
Proof.
  revert acc. induction tasks as [|t rest IH]; intros acc; simpl; [done|].
  destruct (Validate t) eqn:Hv; [done|]. rewrite IH. unfold with_ID. simpl.
  case_bool_decide as Hk.
  - rewrite last_cons. subst. rewrite lookup_insert_eq.
    by destruct (last _).
  - by rewrite lookup_insert_ne.
Qed.

Lemma Load_install_error tasks (acc : Registry) :
  (snd (Load_install tasks acc) = None ↔ valid_prefix tasks = tasks)
  ∧ (snd (Load_install tasks acc) ≠ None →
       ∃ id cause, snd (Load_install tasks acc) = Some (LoadInvalidTask id cause)).
Proof.
  revert acc. induction tasks as [|t rest IH]; intros acc; simpl; [done|].
  destruct (Validate t) eqn:Hv; simpl.
  - split; [done|]. intros _. by eexists _, _.
  - destruct (IH (<[ID t := t]> acc)) as [Hiff Herr]. split; [|done].
    rewrite Hiff. split; [by intros -> | by intros [= ->]].
Qed.

(** X7. [Load] of a decoded file forgets what the registry held and
    installs the tasks of the file up to its first invalid task, a later
    task replacing an earlier one of the same ID; this is so whether or not
    [Load] then returns an error. It fails with the invalid-task error
    exactly when the file has an invalid task. *)
Theorem Load_installs (r0 : Registry) (tasks : list Task) :
  (∀ k, fst (Load r0 (Decoded tasks)) !! k = last (with_ID k (valid_prefix tasks)))
  ∧ ((∃ id cause, snd (Load r0 (Decoded tasks)) = Some (LoadInvalidTask id cause))
     ↔ valid_prefix tasks ≠ tasks).
Proof.
  unfold Load. pose proof (Load_install_lookup tasks ∅) as Hlook.
  destruct (Load_install_error tasks ∅) as [Hok Herr].
  destruct (Load_install tasks ∅) as [r' [err|]] eqn:Hinst; simpl in *.
  - split.
    + intros k. rewrite Hlook, lookup_empty. by destruct (last _).
    + split; [intros _ Heq; by apply Hok in Heq|]. intros _. by apply Herr.
  - split.
    + intros k. rewrite Hlook, lookup_empty. by destruct (last _).
    + split; [|intros Hne; by destruct Hne; apply Hok].
      intros (id & cause & Hcheck). exfalso. clear -Hcheck.
      induction (map_to_list r') as [|[k t] rest IH]; simpl in *; [done|].
      destruct (validateDepsLocked r' t); [done | auto].
Qed.

Lemma valid_prefix_all tasks :
  (∀ t, t ∈ tasks → Validate t = None) → valid_prefix tasks = tasks.
Proof.
  induction tasks as [|t rest IH]; simpl; [done|]. intros Hall.
  rewrite (Hall t ltac:(left)). f_equal. apply IH. intros x Hx. apply Hall. by right.
Qed.

Lemma Load_check_resolved (r : Registry) entries :
  resolved r → (∀ k t, (k, t) ∈ entries → r !! k = Some t) → Load_check r entries = None.
Proof.
  intros Hres. induction entries as [|[k t] rest IH]; simpl; [done|]. intros Hin.
  assert (validateDepsLocked r t = None) as ->.
  { apply validateDeps_loop_None. intros d Hd. eapply Hres; [|done].
    apply (Hin k). left. }
  apply IH. intros k' t' Hin'. apply Hin. by right.
Qed.

(** X6. Round trip: for a registry reached by successful writes, [Load] of
    the task array that [Save] encodes, taken in any order, succeeds and
    gives back the registry, whatever the loading registry held before. *)
Theorem Save_Load (loads : bool) (r r0 : Registry) (tasks : list Task) :
  reaches loads r → tasks ≡ₚ elems (Save_data r) →
  Load r0 (Decoded tasks) = (r, None).
Proof.
  intros (Hkeyed & Hvalid & Hres & _)%reaches_wellformed Hperm.
  rewrite elems_Save_data in Hperm.
  assert (Hin : ∀ t, t ∈ tasks ↔ stored r t).
  { intros t. rewrite Hperm, list_elem_of_fmap. split.
    - intros ([k t'] & -> & Hkt%elem_of_map_to_list). by exists k.
    - intros [k Hk]. exists (k, t). split; [done|]. by apply elem_of_map_to_list. }
  assert (Hprefix : valid_prefix tasks = tasks).
  { apply valid_prefix_all. intros t [k Hk]%Hin. by eapply Hvalid. }
  assert (Hsame : fst (Load_install tasks ∅) = r).
  { apply map_eq. intros k. rewrite Load_install_lookup, Hprefix, lookup_empty.
    destruct (last (with_ID k tasks)) as [t|] eqn:Hlast.
    - apply last_Some_elem_of, elem_of_with_ID in Hlast as [[k' Hk']%Hin <-].
      by rewrite <- (Hkeyed _ _ Hk') in Hk'.
    - apply last_None in Hlast. destruct (r !! k) as [t|] eqn:Hk; [|done].
      assert (t ∈ with_ID k tasks) as Habs.
      { apply elem_of_with_ID. split; [apply Hin; by exists k | by eapply Hkeyed]. }
      rewrite Hlast in Habs. by apply elem_of_nil in Habs. }
  unfold Load. destruct (Load_install_error tasks ∅) as [Hok _].
  destruct (Load_install tasks ∅) as [r' [err|]] eqn:Hinst; simpl in *.
  - by apply Hok in Hprefix.
  - subst r'. f_equal. apply Load_check_resolved; [done|].
    intros k t. by rewrite elem_of_map_to_list.
Qed.

(** ** Updates that keep the dependencies, and the counts by status *)

Lemma edge_same_deps (r : Registry) k (t old : Task) a b :
  r !! k = Some old → Deps t = Deps old → edge (<[k := t]> r) a b ↔ edge r a b.
Proof.
  intros Hold Hdeps. unfold edge. destruct (decide (a = k)) as [->|Hne].
  - rewrite lookup_insert_eq. split.
    + intros (? & [= <-] & Hin). exists old. by rewrite <- Hdeps.
    + intros (? & Hlook & Hin). exists t. split; [done|]. rewrite Hdeps. congruence.
  - by rewrite lookup_insert_ne.
Qed.

Lemma graph_invariant_same_deps (r : Registry) k (t old : Task) :
  r !! k = Some old → Deps t = Deps old → graph_invariant r →
  graph_invariant (<[k := t]> r).
Proof.
  intros Hold Hdeps [Hacyc Hres]. split.
  - intros a Hcycle. apply (Hacyc a). eapply tc_subrel; [|done].
    intros x y Hxy. by apply (edge_same_deps r k t old x y Hold Hdeps).
  - intros id t' d Hid Hd. apply lookup_insert_is_Some'. right.
    apply lookup_insert_Some in Hid as [[-> <-]|[_ Hid]]; [|by eapply Hres].
    rewrite Hdeps in Hd. by eapply Hres.
Qed.

Lemma Update_same_deps_ok (r : Registry) (t old : Task) :
  graph_invariant r → r !! ID t = Some old → Deps t = Deps old → Validate t = None →
  Update r t = (<[ID t := t]> r, None).
Proof.
  intros [Hacyc Hres] Hold Hdeps Hv.
  assert (Hresolve : validateDepsLocked r t = None).
  { apply validateDeps_loop_None. intros d Hd. rewrite Hdeps in Hd. by eapply Hres. }
  rewrite (Update_checked r t Hv ltac:(by eexists) Hresolve).
  destruct (walk_decides r t) as (w & -> & Hw). destruct w as [|visited]; [|done].
  destruct (Hacyc (ID t)). eapply tc_subrel; [|by apply Hw].
  intros x y Hxy. by apply (edge_same_deps r (ID t) t old x y Hold Hdeps).
Qed.

(** X8. In a registry built by successful [Add], [Update] and [Delete],
    [Update] with a valid task that has the ID and the dependencies of a
    stored one (a change of status, title or routing) always succeeds and
    stores it. *)
Theorem Update_same_deps (r : Registry) (t old : Task) :
  reaches false r → r !! ID t = Some old → Deps t = Deps old → Validate t = None →
  Update r t = (<[ID t := t]> r, None).
Proof.
  intros (_ & _ & Hres & Hacyc)%reaches_wellformed. apply Update_same_deps_ok.
  split; auto.
Qed.

Lemma Validate_None (t : Task) :
  Validate t = None → ID t ≠ ""%string ∧ Title t ≠ ""%string ∧ IsValid (TaskStatus t) = true.
Proof.
  unfold Validate. repeat case_bool_decide; try done.
  destruct (IsValid (TaskStatus t)); done.
Qed.

Lemma status_partition (l : list Task) :
  (∀ t, t ∈ l → IsValid (TaskStatus t) = true) →
  length l =
    (length (List.filter (λ t, bool_decide (TaskStatus t = StatusPending)) l)
     + length (List.filter (λ t, bool_decide (TaskStatus t = StatusInProgress)) l)
     + length (List.filter (λ t, bool_decide (TaskStatus t = StatusComplete)) l)
     + length (List.filter (λ t, bool_decide (TaskStatus t = StatusFailed)) l))%nat.
Proof.
  induction l as [|t l IH]; [done|]. intros Hall.
  specialize (IH (λ x Hx, Hall x (list_elem_of_further _ _ _ Hx))).
  specialize (Hall t ltac:(left)). unfold IsValid in Hall.
  rewrite !orb_true_iff, !bool_decide_eq_true in Hall.
  cbn [List.filter length]. rewrite IH.
  destruct Hall as [[[E|E]|E]|E]; rewrite E;
    unfold StatusPending, StatusInProgress, StatusComplete, StatusFailed;
    repeat (case_bool_decide; [try done|try done]); simpl; lia.
Qed.

(** X9. [List] returns every stored task once, and in a registry reached
    by successful writes the four statuses split it: the number of tasks
    [List] returns is the sum of the numbers [ListByStatus] returns for
    pending, in_progress, complete and failed. *)
Theorem List_counts (loads : bool) (r : Registry) :
  reaches loads r →
  length (elems (List r)) = size r
  ∧ length (elems (List r)) =
      (length (elems (ListByStatus r StatusPending))
       + length (elems (ListByStatus r StatusInProgress))
       + length (elems (ListByStatus r StatusComplete))
       + length (elems (ListByStatus r StatusFailed)))%nat.
Proof.
  intros (_ & Hvalid & _)%reaches_wellformed.
  unfold List, ListByStatus, make_empty. rewrite !elems_collect. simpl.
  rewrite filter_true. split.
  - by rewrite length_fmap, length_map_to_list.
  - apply status_partition. intros t ([k t'] & -> & Hin%elem_of_map_to_list)%list_elem_of_fmap.
    by apply Validate_None, (Hvalid k).
Qed.

(** X10. In a registry reached by successful writes, a successful [Add]
    changes the readiness of no task already stored: such a task is in
    [GetReady] after the call exactly when it was before. *)
Theorem Add_keeps_ready (loads : bool) (r : Registry) (t t' : Task) :
  reaches loads r → snd (Add r t) = None → stored r t' →
  t' ∈ elems (GetReady (fst (Add r t))) ↔ t' ∈ elems (GetReady r).
Proof.
  intros (_ & _ & Hres & _)%reaches_wellformed (-> & Hfresh & _)%Add_ok [k Hk].
  rewrite !elem_of_GetReady.
  assert (Hdeps : deps_complete (<[ID t := t]> r) (Deps t') ↔ deps_complete r (Deps t')).
  { unfold deps_complete. split; intros H d Hd; specialize (H d Hd).
    - rewrite lookup_insert_ne in H; [done|]. intros <-.
      destruct (Hres k t' (ID t) Hk Hd) as [? ?]. congruence.
    - rewrite lookup_insert_ne; [done|]. intros <-.
      destruct (Hres k t' (ID t) Hk Hd) as [? ?]. congruence. }
  unfold ready. rewrite Hdeps. split.
  - intros [_ ?]. split; [by exists k|done].
  - intros [_ ?]. split; [|done]. exists k. rewrite lookup_insert_ne; [done|].
    intros <-. congruence.
Qed.

(** * The tools *)

Import tools.

Lemma elem_of_filter_both all statusFilter repoFilter acc t :
  t ∈ elems (filter_both all statusFilter repoFilter acc)
  ↔ t ∈ elems acc ∨ (t ∈ all ∧ TaskStatus t = statusFilter ∧ Repo t = repoFilter).
Proof.
  revert acc. induction all as [|x rest IH]; intros acc; simpl.
  - split; [auto | intros [?|[H _]]; [done | by apply elem_of_nil in H]].
  - rewrite IH, elem_of_cons. clear IH.
    destruct (bool_decide (TaskStatus x = statusFilter) && bool_decide (Repo x = repoFilter))
      eqn:E.
    + apply andb_true_iff in E as [?%bool_decide_eq_true ?%bool_decide_eq_true].
      rewrite elems_append, elem_of_app, list_elem_of_singleton. naive_solver.
    + apply andb_false_iff in E as [?%bool_decide_eq_false|?%bool_decide_eq_false];
        naive_solver.
Qed.

Lemma elems_nil_handled (tasks : slice Task) :
  is_nil (if is_nil tasks then mk_slice [] else tasks) = false
  ∧ elems (if is_nil tasks then mk_slice [] else tasks) = elems tasks.
Proof. by destruct tasks. Qed.

(** X14. The slice [handleTaskList] encodes is never nil, and holds exactly
    the stored tasks that match each filter present among the arguments. *)
Theorem handleTaskList_tasks (taskReg : Registry) (args : Args) :
  is_nil (handleTaskList taskReg args) = false
  ∧ ∀ t, t ∈ elems (handleTaskList taskReg args)
         ↔ stored taskReg t
           ∧ (∀ statusFilter, arg_status args = Some statusFilter → TaskStatus t = statusFilter)
           ∧ (∀ repoFilter, arg_repo args = Some repoFilter → Repo t = repoFilter).
Proof.
  unfold handleTaskList. split; [apply elems_nil_handled|]. intros t.
  rewrite (proj2 (elems_nil_handled _)).
  destruct (arg_status args) as [statusFilter|], (arg_repo args) as [repoFilter|].
  - rewrite elem_of_filter_both, elem_of_List. simpl. split.
    + intros [H|(? & <- & <-)]; [by apply elem_of_nil in H|]. naive_solver.
    + intros (? & Hs & Hr). right. split; [done|]. split; [by apply Hs | by apply Hr].
  - unfold ListByStatus. rewrite elem_of_collect_registry, bool_decide_eq_true. naive_solver.
  - unfold ListByRepo. rewrite elem_of_collect_registry, bool_decide_eq_true. naive_solver.
  - rewrite elem_of_List. naive_solver.
Qed.

Lemma first_incomplete_None deps :
  first_incomplete deps = None ↔ ∀ dep, dep ∈ deps → TaskStatus dep = StatusComplete.
Proof.
  induction deps as [|dep rest IH]; simpl.
  - split; [intros _ ? H; by apply elem_of_nil in H | done].
  - case_bool_decide as Hst.
    + split; [done|]. intros H. destruct Hst. apply H. left.
    + rewrite IH. split.
      * intros H x [->|Hx]%elem_of_cons; [|by apply H].
        by destruct (decide (TaskStatus dep = StatusComplete)).
      * intros H x Hx. apply H. by right.
Qed.

Lemma Validate_with_status (t : Task) (s : Status) now :
  Validate t = None → IsValid s = true → Validate (with_status t s now) = None.
Proof.
  intros (Hid & Htitle & _)%Validate_None Hs. unfold Validate. simpl.
  rewrite !bool_decide_eq_false_2 by done. by rewrite Hs.
Qed.

(** A legal change of status made through the pointer the registry holds,
    and the [Update] that follows it. *)
Lemma SetStatus_then_Update (r : Registry) (taskID : string) (t : Task) (to : Status) now :
  reaches false r → r !! taskID = Some t →
  canTransition (TaskStatus t) to = true → IsValid to = true →
  SetStatus now t to = (with_status t to now, None)
  ∧ Update (<[taskID := with_status t to now]> r) (with_status t to now)
    = (<[taskID := with_status t to now]> r, None).
Proof.
  intros (Hkeyed & Hvalid & Hres & Hacyc)%reaches_wellformed Hid Hcan Hto.
  split; [unfold SetStatus; by rewrite Hcan|].
  set (t1 := with_status t to now).
  assert (Hkey : ID t1 = taskID) by (by apply Hkeyed in Hid).
  rewrite (Update_same_deps_ok (<[taskID := t1]> r) t1 t1).
  - rewrite Hkey. by rewrite insert_insert_eq.
  - apply (graph_invariant_same_deps r taskID t1 t); [done|done|]. split; auto.
  - rewrite Hkey. by rewrite lookup_insert_eq.
  - done.
  - apply Validate_with_status; [by eapply Hvalid|done].
Qed.

Lemma deps_complete_resolved (r : Registry) (k : string) (t : Task) :
  resolved r → r !! k = Some t →
  deps_complete r (Deps t)
  ↔ ∀ dep, dep ∈ omap (r !!.) (Deps t) → TaskStatus dep = StatusComplete.
Proof.
  intros Hres Hk. unfold deps_complete. setoid_rewrite list_elem_of_omap. split.
  - intros H dep (d & Hd & Hlook). destruct (H d Hd) as (dep' & ? & ?). congruence.
  - intros H d Hd. destruct (Hres k t d Hk Hd) as [dep Hdep].
    exists dep. split; [done|]. apply H. by exists d.
Qed.

(** X11. In a registry built by successful [Add], [Update] and [Delete],
    [handleTaskClaim] succeeds exactly on the tasks [GetReady] returns; it
    then leaves the task in_progress and every other task as it was, and
    when it fails the registry is unchanged. *)
Theorem handleTaskClaim_iff_ready (now : Z) (r : Registry) (args : Args) (taskID : string) :
  reaches false r → arg_task_id args = Some taskID →
  (snd (snd (handleTaskClaim now r args)) = None
   ↔ ∃ t, r !! taskID = Some t ∧ t ∈ elems (GetReady r))
  ∧ (∀ t, r !! taskID = Some t → snd (snd (handleTaskClaim now r args)) = None →
       fst (handleTaskClaim now r args) = <[taskID := with_status t StatusInProgress now]> r)
  ∧ (snd (snd (handleTaskClaim now r args)) ≠ None → fst (handleTaskClaim now r args) = r).
Proof.
  intros Hreach Harg. pose proof (reaches_wellformed _ _ Hreach) as (_ & _ & Hres & _).
  unfold handleTaskClaim, Get. rewrite Harg.
  destruct (r !! taskID) as [t|] eqn:Hid; simpl; [|split_and!; try done; naive_solver].
  setoid_rewrite elem_of_GetReady. unfold ready.
  case_bool_decide as Hst; simpl.
  { split_and!; try done. split; [done|]. intros (? & [= <-] & _ & ? & _). done. }
  assert (Hpending : TaskStatus t = StatusPending)
    by (by destruct (decide (TaskStatus t = StatusPending))).
  destruct (elems_GetDeps r taskID t Hid) as [_ ->].
  pose proof (deps_complete_resolved r taskID t Hres Hid) as Hdeps.
  destruct (first_incomplete _) as [dep|] eqn:Hfirst; simpl.
  { split_and!; try done. split; [done|]. intros (? & [= <-] & _ & _ & Hcomplete).
    pose proof (proj2 (first_incomplete_None _) (proj1 Hdeps Hcomplete)). congruence. }
  pose proof (proj2 Hdeps (proj1 (first_incomplete_None _) Hfirst)) as Hcomplete.
  destruct (SetStatus_then_Update r taskID t StatusInProgress now Hreach Hid) as [-> ->].
  - by rewrite Hpending.
  - done.
  - simpl. split_and!; try done.
    + split; [|done]. intros _. exists t. split; [done|].
      split; [by exists taskID|done].
    + by intros ? [= <-].
Qed.

(** X13. In a registry built by successful [Add], [Update] and [Delete],
    [handleTaskComplete] succeeds exactly when the task is stored, is
    in_progress and, if a test runner is configured, the runner reports a
    pass without error; it then leaves the task complete, and when it fails
    (tests failing included) the registry is unchanged. *)
Theorem handleTaskComplete_outcome (now : Z) (r : Registry) (testRunner : TestRunner)
    (args : Args) (taskID : string) :
  reaches false r → arg_task_id args = Some taskID →
  (snd (snd (handleTaskComplete now r testRunner args)) = None
   ↔ ∃ t, r !! taskID = Some t ∧ TaskStatus t = StatusInProgress
          ∧ tests_pass testRunner taskID)
  ∧ (∀ t, r !! taskID = Some t →
       snd (snd (handleTaskComplete now r testRunner args)) = None →
       fst (handleTaskComplete now r testRunner args)
       = <[taskID := with_status t StatusComplete now]> r)
  ∧ (snd (snd (handleTaskComplete now r testRunner args)) ≠ None →
       fst (handleTaskComplete now r testRunner args) = r).
Proof.
  intros Hreach Harg. unfold handleTaskComplete, Get. rewrite Harg.
  destruct (r !! taskID) as [t|] eqn:Hid; simpl; [|split_and!; try done; naive_solver].
  case_bool_decide as Hst; simpl.
  { split_and!; try done. split; [done|]. by intros (? & [= <-] & ? & _). }
  assert (Hprogress : TaskStatus t = StatusInProgress)
    by (by destruct (decide (TaskStatus t = StatusInProgress))).
  destruct (SetStatus_then_Update r taskID t StatusComplete now Hreach Hid
              ltac:(by rewrite Hprogress) eq_refl) as [HSet HUpdate].
  rewrite HSet. cbv beta iota. rewrite HUpdate. cbv beta iota.
  destruct testRunner as [run|]; simpl.
  - destruct (run taskID) as [[[] output] [err|]] eqn:Hrun; simpl.
    + split_and!; try done. split; [done|]. intros (? & _ & _ & ? & Hpass). congruence.
    + split_and!; try done.
      * split; [|done]. intros _. exists t. split_and!; try done. by exists output.
      * by intros ? [= <-].
    + split_and!; try done. split; [done|]. intros (? & _ & _ & ? & Hpass). congruence.
    + split_and!; try done. split; [done|]. intros (? & _ & _ & ? & Hpass). congruence.
  - split_and!; try done.
    + split; [|done]. intros _. by exists t.
    + by intros ? [= <-].
Qed.

(** * The [work] command *)

(** ** Errors wrapped by [runBackend] *)

Lemma isQuotaError_start (text : string) :
  isQuotaError (Some ("failed to start backend: " +:+ text)) = isQuotaError (Some text).
Proof. unfold isQuotaError. rewrite ToLower_app. reflexivity. Qed.

Lemma isQuotaError_session (text : string) :
  isQuotaError (Some ("failed to create session: " +:+ text)) = isQuotaError (Some text).
Proof. unfold isQuotaError. rewrite ToLower_app. reflexivity. Qed.

Lemma isQuotaError_exhausted (backendName : string) :
  isQuotaError (Some ("quota exhausted for backend " +:+ backendName)) = true.
Proof.
  unfold isQuotaError. rewrite ToLower_app.
  assert (Contains (ToLower "quota exhausted for backend " +:+ ToLower backendName) "quota"
          = true) as -> by reflexivity.
  by rewrite orb_true_r.
Qed.

(** X16. When a call reaches a backend (the tracker lets it through, and
    the backend is copilot, or claude with its MCP file written) and ends
    in an error, the tracker is blocked for the backend exactly when the
    error [runBackend] returns is a quota signal: the prefix it puts before
    a start or session error changes nothing to the classification. *)
Theorem runBackend_blocks_iff_signal (w : World) (t : Task) (backendName model : string)
    (tracker tracker' : Tracker) (err : string) :
  IsExhausted (now w) tracker backendName = false →
  backendName = "copilot"%string
  ∨ (backendName = "claude"%string ∧ generateMCPConfig w = None) →
  runBackend w t backendName model tracker = (tracker', (None, Some err)) →
  tracker' = if isQuotaError (Some err)
             then RecordError (now w) tracker backendName Hour else tracker.
Proof.
  intros Hfree Hbuilt. unfold runBackend. rewrite Hfree. cbv zeta.
  assert (Hrun : ∀ backendModel,
    match behave w backendName backendModel with
    | StartFails e =>
        (if isQuotaError (Some e) then RecordError (now w) tracker backendName Hour
         else tracker, (None, Some ("failed to start backend: " +:+ e)))
    | CreateSessionFails e =>
        (if isQuotaError (Some e) then RecordError (now w) tracker backendName Hour
         else tracker, (None, Some ("failed to create session: " +:+ e)))
    | RunFails e =>
        (if isQuotaError (Some e) then RecordError (now w) tracker backendName Hour
         else tracker, (None, Some e))
    | RunReturns result =>
        (if Success result then Record_ (now w) tracker backendName 10000 else tracker,
         (Some result, None))
    end = (tracker', (None, Some err)) →
    tracker' = if isQuotaError (Some err)
               then RecordError (now w) tracker backendName Hour else tracker).
  { intros backendModel. destruct (behave w backendName backendModel) as [e|e|e|res];
      intros [= <- <-]; [by rewrite isQuotaError_start|by rewrite isQuotaError_session|done]. }
  destruct Hbuilt as [->|[-> Hmcp]].
  - rewrite bool_decide_eq_false_2 by done. rewrite bool_decide_eq_true_2 by done.
    apply Hrun.
  - rewrite bool_decide_eq_true_2 by done. rewrite Hmcp. apply Hrun.
Qed.

(** X15. When the tracker already holds the primary backend exhausted and
    the task's fallback splits at "/" into a backend and a model,
    [runWithFailover] goes to the fallback without calling the primary, for
    every backend name: its result is that of the fallback call, made after
    the primary is blocked for another hour. *)
Theorem exhausted_primary_fails_over (w : World) (t : Task) (backendName model : string)
    (tracker : Tracker) (fallbackBackend fallbackModel : string) :
  IsExhausted (now w) tracker backendName = true →
  Split (Fallback t) slash = [fallbackBackend; fallbackModel] →
  runBackend w t backendName model tracker
    = (tracker, (None, Some ("quota exhausted for backend " +:+ backendName)))
  ∧ runWithFailover w t backendName model tracker
    = runBackend w t fallbackBackend fallbackModel
        (RecordError (now w) tracker backendName Hour).
Proof.
  intros Hbusy Hsplit.
  assert (Hprimary : runBackend w t backendName model tracker
    = (tracker, (None, Some ("quota exhausted for backend " +:+ backendName)))).
  { unfold runBackend. by rewrite Hbusy. }
  split; [done|]. unfold runWithFailover. rewrite Hprimary, isQuotaError_exhausted, Hsplit.
  rewrite !bool_decide_eq_true_2; [done| |done]. by eapply Split_two_nonempty.
Qed.

(** X17. [runWithFailover] makes no second call when the primary call
    returns no error, or an error that is no quota signal, or when the
    task's fallback does not split at "/" into exactly two parts (the empty
    fallback included): its result is then the primary's. *)
Theorem runWithFailover_no_retry (w : World) (t : Task) (backendName model : string)
    (tracker : Tracker) :
  isQuotaError (snd (snd (runBackend w t backendName model tracker))) = false
  ∨ length (Split (Fallback t) slash) ≠ 2%nat →
  runWithFailover w t backendName model tracker
    = runBackend w t backendName model tracker.
Proof.
  unfold runWithFailover.
  destruct (runBackend w t backendName model tracker) as [tracker1 [result err]]. simpl.
  intros [->|Hparts]; [by rewrite andb_false_r|].
  destruct (bool_decide (err ≠ None) && isQuotaError err && bool_decide (Fallback t ≠ ""%string));
    [|done].
  by destruct (Split (Fallback t) slash) as [|? [|? [|? ?]]].
Qed.

(** ** What [RunE] does to the task *)

Lemma isReady_loop_false ready taskID :
  (∀ t, t ∈ ready → ID t ≠ taskID) → isReady_loop ready taskID = false.
Proof.
  induction ready as [|x rest IH]; simpl; [done|]. intros Hall.
  rewrite bool_decide_eq_false_2 by (apply Hall; left).
  apply IH. intros t Ht. apply Hall. by right.
Qed.

(** X18. [RunE] admits only a task that [GetReady] returns: when no ready
    task has the requested ID it returns an error and changes neither the
    workspace nor the tracker (no backend is called). *)
Theorem RunE_admission (w : World) (ws : Workspace) (taskID workBackend : string)
    (taskFile : option (string * string)) (loaded : Tracker) :
  (∀ t, t ∈ elems (GetReady (Tasks ws)) → ID t ≠ taskID) →
  fst (RunE w ws taskID workBackend taskFile loaded) = (ws, loaded)
  ∧ snd (RunE w ws taskID workBackend taskFile loaded) ≠ None.
Proof.
  intros Hnot. unfold RunE, Get. destruct (Tasks ws !! taskID) as [t|]; [|done].
  case_bool_decide; [done|]. by rewrite (isReady_loop_false _ _ Hnot).
Qed.

Lemma Update_alias_lookup (r : Registry) (k : string) (t : Task) :
  fst (Update (<[k := t]> r) t) !! k = Some t.
Proof.
  assert (Hcases : fst (Update (<[k := t]> r) t) = <[k := t]> r
                   ∨ fst (Update (<[k := t]> r) t) = <[ID t := t]> (<[k := t]> r)).
  { unfold Update. destruct (Validate t); [by left|].
    destruct (_ !! ID t); [|by left]. destruct (validateDepsLocked _ t); [by left|].
    destruct (checkCircularLocked _ _ _ _ _) as [[|]|]; auto. }
  destruct Hcases as [->| ->]; [by rewrite lookup_insert_eq|].
  destruct (decide (ID t = k)) as [->|Hne]; [by rewrite lookup_insert_eq|].
  by rewrite lookup_insert_ne, lookup_insert_eq.
Qed.

Lemma claimed_lookup (ws : Workspace) (taskID : string) (t : Task) :
  Tasks (Save (update_ignoring_error (store ws taskID t) t)) !! taskID = Some t.
Proof. simpl. apply Update_alias_lookup. Qed.

(** What [RunE] does once the task [t], pending and stored under [taskID]
    in [ws], has passed the admission checks. *)
Lemma RunE_claimed (w : World) (ws : Workspace) (taskID backendName model : string)
    (t : Task) (loaded : Tracker) :
  TaskStatus t = StatusPending →
  let out :=
    match SetStatus (now w) t StatusInProgress with
    | (_, Some _) =>
        (ws, loaded,
         Some ("invalid transition from " +:+ TaskStatus t +:+ " to " +:+ StatusInProgress))
    | (t, None) =>
        let ws := Save (update_ignoring_error (store ws taskID t) t) in
        let tracker := initQuotaTracker loaded in
        match runWithFailover w t backendName model tracker with
        | (tracker, (_, Some err)) => (ws, tracker, Some ("agent failed: " +:+ err))
        | (tracker, (None, None)) => (ws, tracker, None)
        | (tracker, (Some result, None)) =>
            if Success result then (ws, tracker, None)
            else
              let t := fst (SetStatus (now w) t StatusFailed) in
              (Save (update_ignoring_error (store ws taskID t) t), tracker, None)
        end
    end in
  ∃ t', Tasks (out.1.1) !! taskID = Some t' ∧ ID t' = ID t ∧ Deps t' = Deps t
        ∧ match out.2 with
          | Some _ => TaskStatus t' = StatusInProgress
          | None => TaskStatus t' = StatusInProgress ∨ TaskStatus t' = StatusFailed
          end.
Proof.
  intros Hpending. unfold SetStatus at 1. rewrite Hpending.
  change (canTransition StatusPending StatusInProgress) with true. cbv beta iota zeta.
  destruct (runWithFailover _ _ _ _ _) as [tracker [[result|] [err|]]]; simpl fst; simpl snd.
  - eexists. split; [apply Update_alias_lookup|]. by simpl.
  - destruct (Success result).
    + eexists. split; [apply Update_alias_lookup|]. simpl. auto.
    + eexists. split; [apply Update_alias_lookup|]. simpl. auto.
  - eexists. split; [apply Update_alias_lookup|]. by simpl.
  - eexists. split; [apply Update_alias_lookup|]. simpl. auto.
Qed.

(** X19. For a task stored under the requested ID, [RunE] leaves a task
    with the same ID and dependencies stored there and never marks it
    complete: when [RunE] returns an error the task has the status it had
    or is in_progress (never failed), and when it returns none the task is
    in_progress or failed. *)
Theorem RunE_status (w : World) (ws : Workspace) (taskID workBackend : string)
    (taskFile : option (string * string)) (loaded : Tracker) (t : Task) :
  Tasks ws !! taskID = Some t →
  let out := RunE w ws taskID workBackend taskFile loaded in
  ∃ t', Tasks (out.1.1) !! taskID = Some t' ∧ ID t' = ID t ∧ Deps t' = Deps t
        ∧ match out.2 with
          | Some _ => TaskStatus t' = TaskStatus t ∨ TaskStatus t' = StatusInProgress
          | None => TaskStatus t' = StatusInProgress ∨ TaskStatus t' = StatusFailed
          end.
Proof.
  intros Hid. unfold RunE, Get. rewrite Hid.
  case_bool_decide as Hst; [exists t; simpl; auto|].
  assert (Hpending : TaskStatus t = StatusPending)
    by (by destruct (decide (TaskStatus t = StatusPending))).
  destruct (isReady_loop _ taskID); simpl negb; cbv iota; [|exists t; simpl; auto].
  assert (Hgo : ∀ ws1 t1 backendName model,
    TaskStatus t1 = StatusPending → ID t1 = ID t → Deps t1 = Deps t →
    let out :=
      match SetStatus (now w) t1 StatusInProgress with
      | (_, Some _) =>
          (ws1, loaded,
           Some ("invalid transition from " +:+ TaskStatus t1 +:+ " to " +:+ StatusInProgress))
      | (t2, None) =>
          let ws2 := Save (update_ignoring_error (store ws1 taskID t2) t2) in
          let tracker := initQuotaTracker loaded in
          match runWithFailover w t2 backendName model tracker with
          | (tracker, (_, Some err)) => (ws2, tracker, Some ("agent failed: " +:+ err))
          | (tracker, (None, None)) => (ws2, tracker, None)
          | (tracker, (Some result, None)) =>
              if Success result then (ws2, tracker, None)
              else
                let t3 := fst (SetStatus (now w) t2 StatusFailed) in
                (Save (update_ignoring_error (store ws2 taskID t3) t3), tracker, None)
          end
      end in
    ∃ t', Tasks (out.1.1) !! taskID = Some t' ∧ ID t' = ID t ∧ Deps t' = Deps t
          ∧ match out.2 with
            | Some _ => TaskStatus t' = TaskStatus t ∨ TaskStatus t' = StatusInProgress
            | None => TaskStatus t' = StatusInProgress ∨ TaskStatus t' = StatusFailed
            end).
  { intros ws1 t1 backendName model Hp1 Hid1 Hdeps1.
    destruct (RunE_claimed w ws1 taskID backendName model t1 loaded Hp1)
      as (t' & Hlook & Hid' & Hdeps' & Hstatus).
    exists t'. split; [done|]. split; [congruence|]. split; [congruence|].
    destruct (_.2); auto. }
  destruct taskFile as [[fileModel fileFallback]|]; [case_bool_decide|];
    cbv beta iota zeta;
    match goal with
    | |- context [let '(b, m) := ?sel in _] => destruct sel as [backendName model]
    end; by apply Hgo.
Qed.

(** * Authorization *)

Lemma grants_covers perms resource action :
  auth.grants perms resource action = true
  ↔ ∃ perm, perm ∈ perms ∧ covers perm resource action.
Proof.
  unfold covers. induction perms as [|perm rest IH]; simpl.
  - split; [done | intros (? & H & _); by apply elem_of_nil in H].
  - destruct (bool_decide (auth.Resource perm = resource)
              && bool_decide (auth.Action perm = action)) eqn:Hexact.
    + apply andb_true_iff in Hexact as [?%bool_decide_eq_true ?%bool_decide_eq_true].
      split; [intros _|done]. exists perm. split; [left|auto].
    + destruct ((bool_decide (auth.Resource perm = resource)
                 || bool_decide (auth.Resource perm = "*"%string))
                && (bool_decide (auth.Action perm = action)
                    || bool_decide (auth.Action perm = "*"%string))) eqn:Hwild.
      * apply andb_true_iff in Hwild as [Hr Ha].
        apply orb_true_iff in Hr, Ha. rewrite !bool_decide_eq_true in Hr, Ha.
        split; [intros _|done]. exists perm. split; [left|done].
      * rewrite IH. apply andb_false_iff in Hwild.
        rewrite !orb_false_iff, !bool_decide_eq_false in Hwild. split.
        -- intros (p & Hp & Hcov). exists p. split; [by right|done].
        -- intros (p & [->|Hp]%elem_of_cons & Hcov); [naive_solver|]. by exists p.
Qed.

(** X21. [DefaultAuthorizer.Authorize] allows a request exactly when the
    role holds a permission whose resource is the requested one or "*" and
    whose action is the requested one or "*"; and it allows a request
    exactly when [HasPermission] answers true for the permission made of
    that resource and action. *)
Theorem Authorize_iff (role : auth.Role) (resource action : string) :
  (auth.Authorize role resource action = None
   ↔ ∃ perm, perm ∈ auth.Permissions role ∧ covers perm resource action)
  ∧ (auth.Authorize role resource action = None
     ↔ auth.HasPermission role (auth.NewPermission resource action) = true).
Proof.
  unfold auth.Authorize, auth.HasPermission. simpl. rewrite <- grants_covers.
  by destruct (auth.grants _ _ _).
Qed.

(** * Instances *)

Ltac reach_abc :=
  unfold abc;
  apply (reaches_step false _ (OpAdd tC)); [|done|by vm_compute];
  apply (reaches_step false _ (OpAdd tB)); [|done|by vm_compute];
  apply (reaches_step false _ (OpAdd tA)); [|done|by vm_compute];
  apply reaches_new.

Lemma GetDeps_reached_witness :
  snd (GetDeps abc "ua-C") = None
  ∧ ID <$> elems (fst (GetDeps abc "ua-C")) = Deps tC
  ∧ ∀ dep, dep ∈ elems (fst (GetDeps abc "ua-C")) → stored abc dep.
Proof.
  apply (GetDeps_reached false abc "ua-C" tC).
  - reach_abc.
  - by vm_compute.
Defined.

Lemma GetDeps_GetDependents_witness :
  tA ∈ elems (fst (GetDeps abc "ua-B")) ↔ tB ∈ elems (fst (GetDependents abc "ua-A")).
Proof.
  apply (GetDeps_GetDependents false abc "ua-B" "ua-A" tB tA).
  - reach_abc.
  - by vm_compute.
  - by vm_compute.
Defined.

Lemma Save_Load_witness :
  Load NewRegistry (Decoded (elems (Save_data abc))) = (abc, None).
Proof.
  apply (Save_Load false abc NewRegistry (elems (Save_data abc))).
  - reach_abc.
  - reflexivity.
Defined.

Lemma Update_same_deps_witness :
  Update abc (with_status tB StatusInProgress 1)
  = (<["ua-B" := with_status tB StatusInProgress 1]> abc, None).
Proof.
  apply (Update_same_deps abc (with_status tB StatusInProgress 1) tB).
  - reach_abc.
  - by vm_compute.
  - reflexivity.
  - by vm_compute.
Defined.

Lemma List_counts_witness :
  length (elems (List abc)) = size abc
  ∧ length (elems (List abc)) =
      (length (elems (ListByStatus abc StatusPending))
       + length (elems (ListByStatus abc StatusInProgress))
       + length (elems (ListByStatus abc StatusComplete))
       + length (elems (ListByStatus abc StatusFailed)))%nat.
Proof. apply (List_counts false abc). reach_abc. Defined.

Lemma Add_keeps_ready_witness :
  tA ∈ elems (GetReady (fst (Add abc (New 0 "ua-D" "D")))) ↔ tA ∈ elems (GetReady abc).
Proof.
  apply (Add_keeps_ready false abc (New 0 "ua-D" "D") tA).
  - reach_abc.
  - by vm_compute.
  - exists "ua-A"%string. by vm_compute.
Defined.

Lemma handleTaskClaim_iff_ready_witness :
  snd (snd (handleTaskClaim 1 abc claim_A)) = None
  ↔ ∃ t, abc !! "ua-A"%string = Some t ∧ t ∈ elems (GetReady abc).
Proof.
  apply (handleTaskClaim_iff_ready 1 abc claim_A "ua-A").
  - reach_abc.
  - reflexivity.
Defined.

Lemma handleTaskComplete_outcome_witness :
  snd (snd (handleTaskComplete 2 abc_claimed None claim_A)) = None
  ↔ ∃ t, abc_claimed !! "ua-A"%string = Some t ∧ TaskStatus t = StatusInProgress
         ∧ tests_pass None "ua-A".
Proof.
  apply (handleTaskComplete_outcome 2 abc_claimed None claim_A "ua-A").
  - unfold abc_claimed.
    apply (reaches_step false _ (OpUpdate (with_status tA StatusInProgress 1)));
      [|done|by vm_compute].
    reach_abc.
  - reflexivity.
Defined.

Lemma runBackend_blocks_iff_signal_witness :
  RecordError 100 no_usage "copilot" Hour
  = if isQuotaError (Some "429 Too Many Requests")
    then RecordError 100 no_usage "copilot" Hour else no_usage.
Proof.
  apply (runBackend_blocks_iff_signal (failing "429 Too Many Requests") oauth
           "copilot" "" no_usage).
  - reflexivity.
  - by left.
  - by vm_compute.
Defined.

Lemma exhausted_primary_fails_over_witness :
  runWithFailover claude_limited oauth_routed "claude" "opus"
    (RecordError 100 no_usage "claude" Hour)
  = runBackend claude_limited oauth_routed "copilot" "gpt-4"
      (RecordError 100 (RecordError 100 no_usage "claude" Hour) "claude" Hour).
Proof.
  apply (exhausted_primary_fails_over claude_limited oauth_routed "claude" "opus"
           (RecordError 100 no_usage "claude" Hour) "copilot" "gpt-4").
  - by vm_compute.
  - by vm_compute.
Defined.

Lemma runWithFailover_no_retry_witness :
  runWithFailover (failing "connection refused") oauth_routed "claude" "opus" no_usage
  = runBackend (failing "connection refused") oauth_routed "claude" "opus" no_usage.
Proof.
  apply (runWithFailover_no_retry (failing "connection refused") oauth_routed).
  left. by vm_compute.
Defined.

Lemma RunE_admission_witness :
  fst (RunE (failing "connection refused") ws0 "ua-404" "" None no_usage) = (ws0, no_usage)
  ∧ snd (RunE (failing "connection refused") ws0 "ua-404" "" None no_usage) ≠ None.
Proof.
  apply (RunE_admission (failing "connection refused") ws0 "ua-404" "" None no_usage).
  intros t Ht. vm_compute in Ht. apply list_elem_of_singleton in Ht. by subst.
Defined.

Lemma RunE_status_witness :
  ∃ t', Tasks ((RunE (failing "connection refused") ws0 "ua-001" "" None no_usage).1.1)
          !! "ua-001"%string = Some t'
        ∧ ID t' = ID oauth ∧ Deps t' = Deps oauth
        ∧ match (RunE (failing "connection refused") ws0 "ua-001" "" None no_usage).2 with
          | Some _ => TaskStatus t' = TaskStatus oauth ∨ TaskStatus t' = StatusInProgress
          | None => TaskStatus t' = StatusInProgress ∨ TaskStatus t' = StatusFailed
          end.
Proof.
  apply (RunE_status (failing "connection refused") ws0 "ua-001" "" None no_usage oauth).
  by vm_compute.
Defined.
(** * Doing it twice *)

Lemma RunE_admitted (w : World) (ws : Workspace) (taskID workBackend : string)
    (taskFile : option (string * string)) (loaded : Tracker) (t : Task) :
  Tasks ws !! taskID = Some t → TaskStatus t = StatusPending →
  isReady_loop (elems (GetReady (Tasks ws))) taskID = true →
  ∃ t', Tasks ((RunE w ws taskID workBackend taskFile loaded).1.1) !! taskID = Some t'
        ∧ (TaskStatus t' = StatusInProgress ∨ TaskStatus t' = StatusFailed).
Proof.
  intros Hid Hpending Hready. unfold RunE, Get. rewrite Hid, Hready.
  rewrite bool_decide_eq_false_2 by (by intros ?). simpl negb. cbv iota.
  assert (Hgo : ∀ ws1 t1 backendName model, TaskStatus t1 = StatusPending →
    let out :=
      match SetStatus (now w) t1 StatusInProgress with
      | (_, Some _) =>
          (ws1, loaded,
           Some ("invalid transition from " +:+ TaskStatus t1 +:+ " to " +:+ StatusInProgress))
      | (t2, None) =>
          let ws2 := Save (update_ignoring_error (store ws1 taskID t2) t2) in
          let tracker := initQuotaTracker loaded in
          match runWithFailover w t2 backendName model tracker with
          | (tracker, (_, Some err)) => (ws2, tracker, Some ("agent failed: " +:+ err))
          | (tracker, (None, None)) => (ws2, tracker, None)
          | (tracker, (Some result, None)) =>
              if Success result then (ws2, tracker, None)
              else
                let t3 := fst (SetStatus (now w) t2 StatusFailed) in
                (Save (update_ignoring_error (store ws2 taskID t3) t3), tracker, None)
          end
      end in
    ∃ t', Tasks (out.1.1) !! taskID = Some t'
          ∧ (TaskStatus t' = StatusInProgress ∨ TaskStatus t' = StatusFailed)).
  { intros ws1 t1 backendName model Hp1.
    destruct (RunE_claimed w ws1 taskID backendName model t1 loaded Hp1)
      as (t' & Hlook & _ & _ & Hstatus).
    exists t'. split; [done|]. destruct (_.2); auto. }
  destruct taskFile as [[fileModel fileFallback]|]; [case_bool_decide|];
    cbv beta iota zeta;
    match goal with
    | |- context [let '(b, m) := ?sel in _] => destruct sel as [backendName model]
    end; by apply Hgo.
Qed.

(** X20. [RunE] never accepts the same task twice in a row: whatever the
    first call did, a second call for the same task ID on the workspace the
    first one left returns an error, for every backend behaviour, flag and
    tracker. A task that failed has to be put back to pending first. *)
Theorem RunE_twice (w w' : World) (ws : Workspace) (taskID workBackend workBackend' : string)
    (taskFile taskFile' : option (string * string)) (loaded loaded' : Tracker) :
  snd (RunE w' ((RunE w ws taskID workBackend taskFile loaded).1.1) taskID
         workBackend' taskFile' loaded') ≠ None.
Proof.
  destruct (Tasks ws !! taskID) as [t|] eqn:Hid.
  - destruct (decide (TaskStatus t = StatusPending)) as [Hpending|Hother].
    + destruct (isReady_loop (elems (GetReady (Tasks ws))) taskID) eqn:Hready.
      * destruct (RunE_admitted w ws taskID workBackend taskFile loaded t Hid Hpending Hready)
          as (t' & Hlook & Hstatus).
        unfold RunE at 1. unfold Get. rewrite Hlook.
        rewrite bool_decide_eq_true_2; [done|].
        destruct Hstatus as [-> | ->]; done.
      * assert ((RunE w ws taskID workBackend taskFile loaded).1.1 = ws) as ->.
        { unfold RunE, Get. rewrite Hid, Hready. by case_bool_decide. }
        unfold RunE, Get. rewrite Hid, Hready. by case_bool_decide.
    + assert ((RunE w ws taskID workBackend taskFile loaded).1.1 = ws) as ->.
      { unfold RunE, Get. rewrite Hid. by rewrite bool_decide_eq_true_2. }
      unfold RunE, Get. rewrite Hid. by rewrite bool_decide_eq_true_2.
  - assert ((RunE w ws taskID workBackend taskFile loaded).1.1 = ws) as ->.
    { unfold RunE, Get. by rewrite Hid. }
    unfold RunE, Get. by rewrite Hid.
Qed.

(** X12. [handleTaskClaim] never succeeds twice in a row on the same
    arguments: after a successful claim the task is stored in_progress, and
    a second claim on the registry the first one left fails. This holds for
    every registry. *)
Theorem handleTaskClaim_once (now now' : Z) (r : Registry) (args : Args) :
  snd (snd (handleTaskClaim now r args)) = None →
  (∃ taskID t', arg_task_id args = Some taskID
                ∧ fst (handleTaskClaim now r args) !! taskID = Some t'
                ∧ TaskStatus t' = StatusInProgress)
  ∧ snd (snd (handleTaskClaim now' (fst (handleTaskClaim now r args)) args)) ≠ None.
Proof.
  intros Hok. 
  assert (Hfirst : ∃ taskID t', arg_task_id args = Some taskID
                ∧ fst (handleTaskClaim now r args) !! taskID = Some t'
                ∧ TaskStatus t' = StatusInProgress).
  { revert Hok. unfold handleTaskClaim, Get.
    destruct (arg_task_id args) as [taskID|]; [|done].
    destruct (r !! taskID) as [t|]; [|done].
    case_bool_decide; [done|]. destruct (first_incomplete _); [done|].
    unfold SetStatus. destruct (canTransition _ _); [|done].
    pose proof (Update_alias_lookup r taskID (with_status t StatusInProgress now)) as Hlook.
    destruct (Update _ _) as [r1 [err|]]; [done|]. intros _.
    exists taskID, (with_status t StatusInProgress now). by split. }
  split; [done|]. destruct Hfirst as (taskID & t' & Harg & Hlook & Hstatus).
  unfold handleTaskClaim at 1. unfold Get. rewrite Harg, Hlook.
  rewrite bool_decide_eq_true_2; [done|]. by rewrite Hstatus.
Qed.

Lemma handleTaskClaim_once_witness :
  (∃ taskID t', arg_task_id claim_A = Some taskID
                ∧ fst (handleTaskClaim 1 abc claim_A) !! taskID = Some t'
                ∧ TaskStatus t' = StatusInProgress)
  ∧ snd (snd (handleTaskClaim 2 (fst (handleTaskClaim 1 abc claim_A)) claim_A)) ≠ None.
Proof. apply (handleTaskClaim_once 1 2 abc claim_A). by vm_compute. Defined.
